(** * lockfreequeue: a Michael-Scott queue over atomic pointers

    Shallow embedding of [lockfreequeue.go] and the proofs of its
    specification, for a single caller and for threads whose calls are
    interleaved one atomic action at a time.  The Go heap is a list of nodes
    addressed by index; a pointer is an optional address ([None] is [nil]);
    the code of [New], [Enqueue] and [Dequeue] is written in a state and
    error monad over that store, one monadic action per atomic load or
    compare-and-swap of the source.  The unbounded [for] loops take a fuel
    argument that counts iterations. *)

From stdpp Require Import base tactics option list.

(** ** Results of running code against the store *)

Inductive result (A : Type) : Type :=
| Done (a : A)     (* the call returned *)
| Panic            (* nil pointer dereference *)
| OutOfFuel.       (* the loop did not finish within the fuel given *)

Arguments Done {A} a.
Arguments Panic {A}.
Arguments OutOfFuel {A}.

(** ** Memory *)

(** An address of a node is an index in the heap; [unsafe.Pointer] is an
    optional address, [None] for [nil]. *)
Abbreviation loc := nat (only parsing).
Abbreviation ptr := (option nat) (only parsing).

Section Queue.

(** The element type of the queue and Go's zero value of that type. *)
Context {T : Type} (zero : T).

(** [type node[T any] struct { value T; next unsafe.Pointer }] *)
Record node : Type := Node { value : T; next : ptr }.

(** [type LockFreeQueue[T any] struct { head, tail unsafe.Pointer }] *)
Record LockFreeQueue : Type := Queue { head : ptr; tail : ptr }.

(** The memory the queue lives in: the allocated nodes, and the queue
    structure itself. *)
Record store : Type := Store { heap : list node; queue : LockFreeQueue }.

(** The pointer-sized words the code reads and writes atomically:
    [&q.head], [&q.tail] and [&p.next] for a node pointer [p]. *)
Inductive cell : Type :=
| HeadCell
| TailCell
| NextCell (p : ptr).

(** ** The monad of the code: state passing with panics and fuel *)

Definition M (A : Type) : Type := store -> result (A * store).

Definition ret {A} (a : A) : M A := fun s => Done (a, s).

Definition bind {A B} (m : M A) (k : A -> M B) : M B :=
  fun s =>
    match m s with
    | Done (a, s') => k a s'
    | Panic => Panic
    | OutOfFuel => OutOfFuel
    end.

Definition out_of_fuel {A} : M A := fun _ => OutOfFuel.

Notation "'let*' x ':=' m 'in' k" := (bind m (fun x => k))
  (at level 10, x name, m at level 100, k at level 200,
   format "'[v' 'let*'  x  ':='  m  'in' '/' k ']'").

(** Dereference of a node pointer: [nil] panics. *)
Definition deref (p : ptr) : M (loc * node) :=
  fun s =>
    match p with
    | None => Panic
    | Some a =>
        match heap s !! a with
        | Some n => Done ((a, n), s)
        | None => Panic
        end
    end.

(** [func load[T any](p *unsafe.Pointer) *node[T]] *)
Definition load (c : cell) : M ptr :=
  match c with
  | HeadCell => fun s => Done (head (queue s), s)
  | TailCell => fun s => Done (tail (queue s), s)
  | NextCell p => let* an := deref p in ret (next (snd an))
  end.

(** [func cas[T any](p *unsafe.Pointer, old, new *node[T]) bool] *)
Definition cas (c : cell) (old new : ptr) : M bool :=
  match c with
  | HeadCell => fun s =>
      if decide (head (queue s) = old)
      then Done (true, Store (heap s) (Queue new (tail (queue s))))
      else Done (false, s)
  | TailCell => fun s =>
      if decide (tail (queue s) = old)
      then Done (true, Store (heap s) (Queue (head (queue s)) new))
      else Done (false, s)
  | NextCell p =>
      let* an := deref p in
      fun s =>
        if decide (next (snd an) = old)
        then Done (true, Store (<[fst an := Node (value (snd an)) new]> (heap s))
                               (queue s))
        else Done (false, s)
  end.

(** Allocation of a node, [&node[T]{value: v}] and [new(node[T])]: the
    fresh node takes the first unused address. *)
Definition alloc (v : T) : M ptr :=
  fun s => Done (Some (length (heap s)),
                 Store (heap s ++ [Node v None]) (queue s)).

(** [next.value] *)
Definition read_value (p : ptr) : M T :=
  let* an := deref p in ret (value (snd an)).

(** ** The queue *)

(** [func New[T any]() *LockFreeQueue[T]], run in a memory that already
    holds the nodes [hp]. *)
Definition New (hp : list node) : store :=
  let node := Some (length hp) in
  Store (hp ++ [Node zero None]) (Queue node node).

(** The [for] loop of [Enqueue]. *)
Fixpoint Enqueue_loop (fuel : nat) (node : ptr) : M unit :=
  match fuel with
  | 0 => out_of_fuel
  | S fuel =>
      let* tail := load TailCell in
      let* next := load (NextCell tail) in
      let* tail' := load TailCell in
      if decide (tail = tail') then
        if decide (next = None) then
          let* linked := cas (NextCell tail) next node in
          if linked : bool then
            let* _ := cas TailCell tail node in
            ret tt
          else Enqueue_loop fuel node
        else
          let* _ := cas TailCell tail next in
          Enqueue_loop fuel node
      else Enqueue_loop fuel node
  end.

(** [func (q *LockFreeQueue[T]) Enqueue(v T)] *)
Definition Enqueue (fuel : nat) (v : T) : M unit :=
  let* node := alloc v in
  Enqueue_loop fuel node.

(** [func (q *LockFreeQueue[T]) Dequeue() (v T, ok bool)] *)
Fixpoint Dequeue (fuel : nat) : M (T * bool) :=
  match fuel with
  | 0 => out_of_fuel
  | S fuel =>
      let* head := load HeadCell in
      let* tail := load TailCell in
      let* next := load (NextCell head) in
      let* head' := load HeadCell in
      if decide (head = head') then
        if decide (head = tail) then
          if decide (next = None) then ret (zero, false)
          else
            let* _ := cas TailCell tail next in
            Dequeue fuel
        else
          let* v := read_value next in
          let* swung := cas HeadCell head next in
          if swung : bool then ret (v, true)
          else Dequeue fuel
      else Dequeue fuel
  end.

(** ** A single caller

    A program of a single caller is a sequence of calls; [run] performs them
    one after the other and collects what the [Dequeue] calls returned. *)

Inductive op : Type :=
| Enq (v : T)
| Deq.

Fixpoint run (fuel : nat) (ops : list op) : M (list (T * bool)) :=
  match ops with
  | [] => ret []
  | Enq v :: ops =>
      let* _ := Enqueue fuel v in
      run fuel ops
  | Deq :: ops =>
      let* r := Dequeue fuel in
      let* rs := run fuel ops in
      ret (r :: rs)
  end.

(** The values passed to [Enqueue] by a program, in call order. *)
Definition enqueued (ops : list op) : list T :=
  omap (fun o : op => match o with Enq v => Some v | Deq => None end) ops.

(** The values of the [Dequeue] calls that returned [ok = true]. *)
Definition successes (outs : list (T * bool)) : list T :=
  omap (fun r : T * bool => if snd r then Some (fst r) else None) outs.

(** ** The sequential FIFO queue of the specification

    A queue is the list of its pending values, oldest first: [Enqueue] adds
    at the tail, [Dequeue] removes and returns the head value if present and
    returns the zero value with [false] if the queue is empty. *)

Definition fifo_Enqueue (v : T) (l : list T) : list T := l ++ [v].

Definition fifo_Dequeue (l : list T) : (T * bool) * list T :=
  match l with
  | [] => ((zero, false), [])
  | v :: l' => ((v, true), l')
  end.

Fixpoint fifo_run (ops : list op) (l : list T) : list (T * bool) * list T :=
  match ops with
  | [] => ([], l)
  | Enq v :: ops => fifo_run ops (fifo_Enqueue v l)
  | Deq :: ops =>
      let '(r, l') := fifo_Dequeue l in
      let '(rs, l'') := fifo_run ops l' in
      (r :: rs, l'')
  end.

(** ** The shape of the linked structure *)

(** The value slot of the node at an address. *)
Definition val_at (hp : list node) (a : loc) : T :=
  match hp !! a with
  | Some n => value n
  | None => zero
  end.

(** [chain s ch i j]: the nodes at the addresses [ch] form the linked list
    of the queue, each pointing to the following one and the last one to
    [nil]; [head] is the [i]-th of them and [tail] the [j]-th, not before
    [head].  The tail lags when [j] is not the last position. *)
Record chain (s : store) (ch : list loc) (i j : nat) : Prop := Chain {
  chain_nodup : NoDup ch;
  chain_head : head (queue s) = ch !! i;
  chain_tail : tail (queue s) = ch !! j;
  chain_le : i <= j;
  chain_lt : j < length ch;
  chain_link : forall k a, ch !! k = Some a ->
      exists n, heap s !! a = Some n /\ next n = ch !! S k
}.

(** The pending values of a queue of that shape: those of the nodes after
    [head]. *)
Definition pending (s : store) (ch : list loc) (i : nat) : list T :=
  map (val_at (heap s)) (drop (S i) ch).

(** A queue between two calls of a single caller: the tail does not lag. *)
Definition quiescent (s : store) (l : list T) : Prop :=
  exists ch i, chain s ch i (length ch - 1) /\ pending s ch i = l.

(** A queue is empty when [head] and [tail] are the same node and that node
    has no successor. *)
Definition is_empty (s : store) : bool :=
  bool_decide (head (queue s) = tail (queue s)) &&
  match head (queue s) with
  | Some a =>
      match heap s !! a with
      | Some n => bool_decide (next n = None)
      | None => false
      end
  | None => false
  end.

(** [stable s s']: every node of [s] is a node of [s'] with the same value,
    and with the same [next] if that was not [nil] in [s]. *)
Definition stable (s s' : store) : Prop :=
  forall a n, heap s !! a = Some n ->
    exists n', heap s' !! a = Some n' /\ value n' = value n /\
               forall m, next n = Some m -> next n' = Some m.

(** [head_holds d s o]: [head] points to a node; if [o] is a value, the
    node holds it; if [o] is [None], the node is the one at [d] and holds
    the zero value. *)
Definition head_holds (d : ptr) (s : store) (o : option T) : Prop :=
  exists h hn,
    head (queue s) = Some h /\ heap s !! h = Some hn /\
    match o with
    | None => head (queue s) = d /\ value hn = zero
    | Some v => value hn = v
    end.

(** [separate hp qa qb la lb]: two queues in one memory [hp], neither with
    a lagging tail, whose linked lists share no node; [la] and [lb] are
    their pending values. *)
Definition separate (hp : list node) (qa qb : LockFreeQueue)
    (la lb : list T) : Prop :=
  exists cha ia chb ib,
    chain (Store hp qa) cha ia (length cha - 1) /\
    pending (Store hp qa) cha ia = la /\
    chain (Store hp qb) chb ib (length chb - 1) /\
    pending (Store hp qb) chb ib = lb /\
    forall a, a ∈ cha -> a ∈ chb -> False.

(** Overwriting the value slot of the node at an address. *)
Definition set_value (a : loc) (x : T) (s : store) : store :=
  match heap s !! a with
  | Some n => Store (<[a := Node x (next n)]> (heap s)) (queue s)
  | None => s
  end.

(** ** Running the atomic actions

    One equation for each atomic action of the code on a store where its
    outcome is known; [exec] runs the first action of a sequence with
    such an equation. *)

Lemma bind_eq {A B} (m : M A) (k : A -> M B) s a s' :
  m s = Done (a, s') -> bind m k s = k a s'.
Proof. unfold bind. by intros ->. Qed.

Lemma load_head s p : head (queue s) = p -> load HeadCell s = Done (p, s).
Proof. by intros <-. Qed.

Lemma load_tail s p : tail (queue s) = p -> load TailCell s = Done (p, s).
Proof. by intros <-. Qed.

Lemma load_next s a n p :
  heap s !! a = Some n -> next n = p ->
  load (NextCell (Some a)) s = Done (p, s).
Proof. intros Hn <-. cbn [load]. unfold bind, deref. by rewrite Hn. Qed.

Lemma read_value_at s a n :
  heap s !! a = Some n -> read_value (Some a) s = Done (value n, s).
Proof. intros Hn. unfold read_value, bind, deref. by rewrite Hn. Qed.

Lemma cas_head_ok s old new :
  head (queue s) = old ->
  cas HeadCell old new s =
  Done (true, Store (heap s) (Queue new (tail (queue s)))).
Proof. intros Hh. cbn [cas]. by rewrite decide_True. Qed.

Lemma cas_tail_ok s old new :
  tail (queue s) = old ->
  cas TailCell old new s =
  Done (true, Store (heap s) (Queue (head (queue s)) new)).
Proof. intros Ht. cbn [cas]. by rewrite decide_True. Qed.

Lemma cas_next_ok s a n old new :
  heap s !! a = Some n -> next n = old ->
  cas (NextCell (Some a)) old new s =
  Done (true, Store (<[a := Node (value n) new]> (heap s)) (queue s)).
Proof.
  intros Hn Hnx. cbn [cas]. unfold bind, deref. rewrite Hn. cbn [fst snd].
  by rewrite decide_True.
Qed.

Ltac exec H := rewrite (bind_eq _ _ _ _ _ H); cbv beta.

(** ** Basic facts about the shape *)

Lemma chain_head_lt s ch i j : chain s ch i j -> i < length ch.
Proof. intros C. pose proof (chain_le _ _ _ _ C). pose proof (chain_lt _ _ _ _ C). lia. Qed.

Lemma chain_at s ch i j k :
  chain s ch i j -> k < length ch ->
  exists a n, ch !! k = Some a /\ heap s !! a = Some n /\ next n = ch !! S k.
Proof.
  intros C Hk. destruct (lookup_lt_is_Some_2 ch k Hk) as [a Ha].
  destruct (chain_link _ _ _ _ C k a Ha) as (n & Hn & Hnx). eauto.
Qed.

Lemma chain_alloc_lt s ch i j a :
  chain s ch i j -> a ∈ ch -> a < length (heap s).
Proof.
  intros C [k Hk]%list_elem_of_lookup.
  destruct (chain_link _ _ _ _ C k a Hk) as (n & Hn & _).
  by apply lookup_lt_Some in Hn.
Qed.

Lemma chain_inj s ch i j k k' a :
  chain s ch i j -> ch !! k = Some a -> ch !! k' = Some a -> k = k'.
Proof. intros C. apply NoDup_lookup, C. Qed.

(** A fresh queue has the shape of a one-node list. *)
Lemma chain_New hp : chain (New hp) [length hp] 0 0.
Proof.
  split; simpl; try done; try lia.
  - apply NoDup_singleton.
  - intros [|k] a Hk; simplify_eq/=.
    exists (Node zero None). split; [|done].
    by rewrite lookup_app_r, Nat.sub_diag.
Qed.

(** Allocating a node does not disturb the shape. *)
Lemma chain_alloc s ch i j v :
  chain s ch i j ->
  chain (Store (heap s ++ [Node v None]) (queue s)) ch i j.
Proof.
  intros C. split; simpl; try apply C.
  intros k a Hk. destruct (chain_link _ _ _ _ C k a Hk) as (n & Hn & Hnx).
  exists n. split; [|done]. by apply lookup_app_l_Some.
Qed.

(** One iteration of the loop of [Enqueue] when the tail lags: the tail is
    swung to its successor and the loop goes on. *)
Lemma Enqueue_loop_help fuel s ch i j node :
  chain s ch i j -> S j < length ch ->
  Enqueue_loop (S fuel) node s =
  Enqueue_loop fuel node (Store (heap s) (Queue (head (queue s)) (ch !! S j))).
Proof.
  intros C Hj.
  destruct (chain_at _ _ _ _ j C) as (a & n & Ha & Hn & Hnx); [lia|].
  destruct (lookup_lt_is_Some_2 ch (S j) Hj) as [b Hb].
  rewrite Hb in Hnx |- *.
  assert (tail (queue s) = Some a) as Ht by (by rewrite (chain_tail _ _ _ _ C)).
  cbn [Enqueue_loop].
  exec (load_tail s _ Ht). exec (load_next s a n _ Hn Hnx).
  exec (load_tail s _ Ht).
  rewrite decide_True by done. rewrite decide_False by done.
  by exec (cas_tail_ok s _ (Some b) Ht).
Qed.

(** The iteration of the loop of [Enqueue] at a tail that does not lag: the
    node is linked after the last node, the tail is swung to it, and the
    call returns. *)
Lemma Enqueue_loop_link fuel s ch i j a n node :
  chain s ch i j -> S j = length ch ->
  ch !! j = Some a -> heap s !! a = Some n ->
  Enqueue_loop (S fuel) node s =
  Done (tt, Store (<[a := Node (value n) node]> (heap s))
                  (Queue (head (queue s)) node)).
Proof.
  intros C Hj Ha Hn.
  destruct (chain_link _ _ _ _ C j a Ha) as (n' & Hn' & Hnx). simplify_eq.
  rewrite (lookup_ge_None_2 ch (S j)) in Hnx by lia.
  assert (tail (queue s) = Some a) as Ht by (by rewrite (chain_tail _ _ _ _ C)).
  cbn [Enqueue_loop].
  exec (load_tail s _ Ht). exec (load_next s a n _ Hn Hnx).
  exec (load_tail s _ Ht).
  rewrite !decide_True by done.
  exec (cas_next_ok s a n None node Hn Hnx).
  by exec (cas_tail_ok (Store (<[a := Node (value n) node]> (heap s)) (queue s))
             _ node Ht).
Qed.

(** Swinging a lagging tail forward keeps the shape. *)
Lemma chain_swing s ch i j :
  chain s ch i j -> S j < length ch ->
  chain (Store (heap s) (Queue (head (queue s)) (ch !! S j))) ch i (S j).
Proof.
  intros C Hj. split; simpl; try apply C; try done.
  pose proof (chain_le _ _ _ _ C). lia.
Qed.

(** [Enqueue_loop] from any shape: with fuel for the lag of the tail and one
    more iteration, it links the node after the last node of the list and
    leaves the tail on it. *)
Lemma Enqueue_loop_chain fuel s ch i j node :
  chain s ch i j -> length ch - j <= fuel ->
  exists a n,
    ch !! (length ch - 1) = Some a /\ heap s !! a = Some n /\ next n = None /\
    Enqueue_loop fuel node s =
    Done (tt, Store (<[a := Node (value n) node]> (heap s))
                    (Queue (head (queue s)) node)).
Proof.
  revert s j. induction fuel as [|fuel IH]; intros s j C Hf.
  { pose proof (chain_lt _ _ _ _ C). lia. }
  pose proof (chain_lt _ _ _ _ C) as Hlt.
  destruct (decide (S j = length ch)) as [Hj|Hj].
  - destruct (chain_at _ _ _ _ j C) as (a & n & Ha & Hn & Hnx); [lia|].
    exists a, n. replace (length ch - 1) with j by lia.
    rewrite (lookup_ge_None_2 ch (S j)) in Hnx by lia.
    split_and!; try done. by eapply Enqueue_loop_link.
  - rewrite (Enqueue_loop_help fuel s ch i j) by (done || lia).
    destruct (IH _ (S j) (chain_swing s ch i j C ltac:(lia)) ltac:(lia))
      as (a & n & Ha & Hn & Hnx & ->).
    exists a, n. split_and!; done.
Qed.

(** Writing the [next] field of a node keeps every value slot. *)
Lemma val_at_set_next hp a n p b :
  hp !! a = Some n -> val_at (<[a := Node (value n) p]> hp) b = val_at hp b.
Proof.
  intros Hn. unfold val_at. destruct (decide (a = b)) as [->|Hab].
  - rewrite list_lookup_insert_eq by (by eapply lookup_lt_Some). by rewrite Hn.
  - by rewrite list_lookup_insert_ne.
Qed.

Lemma val_at_app_l hp hp' a : a < length hp -> val_at (hp ++ hp') a = val_at hp a.
Proof. intros Ha. unfold val_at. by rewrite lookup_app_l. Qed.

(** Linking a fresh node after the last node extends the list by it. *)
Lemma chain_link_new s ch i j a n new v :
  chain s ch i j ->
  ch !! (length ch - 1) = Some a -> heap s !! a = Some n ->
  new ∉ ch -> heap s !! new = Some (Node v None) ->
  chain (Store (<[a := Node (value n) (Some new)]> (heap s))
               (Queue (head (queue s)) (Some new)))
        (ch ++ [new]) i (length ch).
Proof.
  intros C Ha Hn Hnew Hv.
  pose proof (chain_lt _ _ _ _ C) as Hlt.
  pose proof (chain_le _ _ _ _ C) as Hle.
  assert (a ≠ new) as Hne.
  { intros ->. apply Hnew. by eapply list_elem_of_lookup_2. }
  split; simpl.
  - apply NoDup_app. split_and!; [apply C| |apply NoDup_singleton].
    intros x Hx ->%list_elem_of_singleton. done.
  - rewrite lookup_app_l by lia. apply C.
  - by rewrite lookup_app_r, Nat.sub_diag.
  - lia.
  - rewrite length_app. simpl. lia.
  - intros k b Hk. destruct (decide (k < length ch)) as [Hkl|Hkl].
    + rewrite lookup_app_l in Hk by done.
      destruct (chain_link _ _ _ _ C k b Hk) as (nb & Hnb & Hnx).
      destruct (decide (S k = length ch)) as [Hlast|Hlast].
      * replace (length ch - 1) with k in Ha by lia. simplify_eq.
        eexists. rewrite list_lookup_insert_eq by (by eapply lookup_lt_Some).
        split; [done|]. simpl. by rewrite Hlast, lookup_app_r, Nat.sub_diag.
      * assert (a ≠ b) as Hab.
        { intros ->. apply Hlast.
          rewrite <- (chain_inj _ _ _ _ _ _ _ C Ha Hk). lia. }
        exists nb. rewrite list_lookup_insert_ne by done.
        split; [done|]. rewrite Hnx. by rewrite lookup_app_l by lia.
    + rewrite lookup_app_r in Hk by lia.
      destruct (k - length ch) as [|d] eqn:Hd; simplify_eq/=.
      exists (Node v None). rewrite list_lookup_insert_ne by done.
      split; [done|]. simpl. symmetry. apply lookup_ge_None_2.
      rewrite length_app. simpl. lia.
Qed.

(** [Enqueue] from any shape: with fuel for the lag of the tail and one more
    iteration it returns, the list is extended by a fresh node holding the
    value, the tail does not lag any more, and the pending values are
    extended by the value. *)
Lemma Enqueue_chain fuel v s ch i j :
  chain s ch i j -> length ch - j <= fuel ->
  exists a n,
    ch !! (length ch - 1) = Some a /\ heap s !! a = Some n /\ next n = None /\
    let s' := Store (<[a := Node (value n) (Some (length (heap s)))]>
                       (heap s ++ [Node v None]))
                    (Queue (head (queue s)) (Some (length (heap s)))) in
    Enqueue fuel v s = Done (tt, s') /\
    chain s' (ch ++ [length (heap s)]) i (length ch) /\
    pending s' (ch ++ [length (heap s)]) i = pending s ch i ++ [v].
Proof.
  intros C Hf. pose proof (chain_alloc s ch i j v C) as C'.
  destruct (Enqueue_loop_chain fuel _ ch i j (Some (length (heap s))) C' Hf)
    as (a & n & Ha & Hn & Hnx & Hrun). simpl in Hn, Hrun.
  assert (a < length (heap s)) as Hlt.
  { eapply chain_alloc_lt; [exact C|]. by eapply list_elem_of_lookup_2. }
  rewrite lookup_app_l in Hn by done.
  exists a, n. split_and!; try done.
  assert (length (heap s) ∉ ch) as Hfresh.
  { intros Hin. pose proof (chain_alloc_lt _ _ _ _ _ C Hin). lia. }
  assert ((heap s ++ [Node v None]) !! length (heap s) = Some (Node v None)) as Hv.
  { by rewrite lookup_app_r, Nat.sub_diag. }
  assert ((heap s ++ [Node v None]) !! a = Some n) as Hn'.
  { by rewrite lookup_app_l. }
  split_and!.
  - unfold Enqueue. by exec (eq_refl (alloc v s)).
  - exact (chain_link_new _ ch i j a n _ v C' Ha Hn' Hfresh Hv).
  - unfold pending. cbn [heap].
    pose proof (chain_head_lt _ _ _ _ C) as Hi.
    rewrite drop_app_le by lia. rewrite map_app. cbn [map].
    f_equal.
    + apply map_ext_in. intros b Hb%list_elem_of_In.
      rewrite val_at_set_next by done. apply val_at_app_l.
      eapply chain_alloc_lt; [exact C|]. eapply subseteq_drop, Hb.
    + rewrite val_at_set_next by done. unfold val_at. by rewrite Hv.
Qed.

(** ** [Dequeue] *)

(** On an empty queue the first iteration returns the zero value and
    [false], and the store is as before. *)
Lemma is_empty_true s :
  is_empty s = true <->
  head (queue s) = tail (queue s) /\
  exists a n, head (queue s) = Some a /\ heap s !! a = Some n /\ next n = None.
Proof.
  unfold is_empty. rewrite andb_true_iff, bool_decide_eq_true. split.
  - intros [Hht H]. split; [done|].
    destruct (head (queue s)) as [a|]; [|done].
    destruct (heap s !! a) as [n|] eqn:Hn; [|done].
    apply bool_decide_eq_true in H. by exists a, n.
  - intros [Hht (a & n & Ha & Hn & Hnx)]. split; [done|].
    rewrite Ha, Hn. by apply bool_decide_eq_true.
Qed.

Lemma Dequeue_is_empty fuel s :
  is_empty s = true -> Dequeue (S fuel) s = Done ((zero, false), s).
Proof.
  intros (Hht & a & n & Ha & Hn & Hnx)%is_empty_true.
  cbn [Dequeue].
  exec (load_head s _ Ha). exec (load_tail s _ (eq_sym Hht)).
  exec (load_next s a n _ Hn Hnx). exec (load_head s _ Ha).
  by rewrite Ha, !decide_True by done.
Qed.

(** The last node of a list whose tail does not lag is an empty queue's
    only node. *)
Lemma chain_is_empty s ch i j :
  chain s ch i j -> S i = length ch -> is_empty s = true.
Proof.
  intros C Hi. apply is_empty_true.
  pose proof (chain_lt _ _ _ _ C). pose proof (chain_le _ _ _ _ C).
  assert (j = i) as -> by lia.
  destruct (chain_at _ _ _ _ i C) as (a & n & Ha & Hn & Hnx); [lia|].
  rewrite (lookup_ge_None_2 ch (S i)) in Hnx by lia.
  split.
  - by rewrite (chain_head _ _ _ _ C), (chain_tail _ _ _ _ C).
  - exists a, n. by rewrite (chain_head _ _ _ _ C).
Qed.

(** An iteration of [Dequeue] when [head] is behind [tail]: the value of the
    successor of [head] is read, [head] is swung to that node, and the call
    returns the value. *)
Lemma Dequeue_take fuel s ch i j b :
  chain s ch i j -> i < j -> ch !! S i = Some b ->
  Dequeue (S fuel) s =
  Done ((val_at (heap s) b, true),
        Store (heap s) (Queue (Some b) (tail (queue s)))).
Proof.
  intros C Hij Hb.
  pose proof (chain_lt _ _ _ _ C) as Hlt.
  destruct (chain_at _ _ _ _ i C) as (a & n & Ha & Hn & Hnx); [lia|].
  destruct (chain_at _ _ _ _ j C) as (t & nt & Ht & _); [lia|].
  destruct (chain_link _ _ _ _ C _ _ Hb) as (nb & Hnb & _).
  rewrite Hb in Hnx.
  assert (head (queue s) = Some a) as Hh by (by rewrite (chain_head _ _ _ _ C)).
  assert (tail (queue s) = Some t) as Htl by (by rewrite (chain_tail _ _ _ _ C)).
  assert (a ≠ t) as Hat.
  { intros ->. pose proof (chain_inj _ _ _ _ _ _ _ C Ha Ht). lia. }
  cbn [Dequeue].
  exec (load_head s _ Hh). exec (load_tail s _ Htl).
  exec (load_next s a n _ Hn Hnx). exec (load_head s _ Hh).
  rewrite decide_True by done. rewrite decide_False by congruence.
  exec (read_value_at s b nb Hnb). exec (cas_head_ok s _ (Some b) Hh).
  unfold ret, val_at. by rewrite Hnb.
Qed.

(** An iteration of [Dequeue] when [head] and [tail] are the same node and
    that node has a successor: the tail is helped forward and the loop goes
    on. *)
Lemma Dequeue_help fuel s ch i :
  chain s ch i i -> S i < length ch ->
  Dequeue (S fuel) s =
  Dequeue fuel (Store (heap s) (Queue (head (queue s)) (ch !! S i))).
Proof.
  intros C Hi.
  destruct (chain_at _ _ _ _ i C) as (a & n & Ha & Hn & Hnx); [lia|].
  destruct (lookup_lt_is_Some_2 ch (S i) Hi) as [b Hb].
  rewrite Hb in Hnx |- *.
  assert (head (queue s) = Some a) as Hh by (by rewrite (chain_head _ _ _ _ C)).
  assert (tail (queue s) = Some a) as Htl by (by rewrite (chain_tail _ _ _ _ C)).
  cbn [Dequeue].
  exec (load_head s _ Hh). exec (load_tail s _ Htl).
  exec (load_next s a n _ Hn Hnx). exec (load_head s _ Hh).
  rewrite !decide_True by done. rewrite decide_False by done.
  by exec (cas_tail_ok s _ (Some b) Htl).
Qed.

(** Swinging the head forward keeps the shape, with one pending value
    less. *)
Lemma chain_advance s ch i j b :
  chain s ch i j -> i < j -> ch !! S i = Some b ->
  chain (Store (heap s) (Queue (Some b) (tail (queue s)))) ch (S i) j.
Proof.
  intros C Hij Hb. split; simpl; try apply C; try done; lia.
Qed.

(** [Dequeue] from any shape with a node after [head]: within two
    iterations it returns the value of that node and [head] is on it. *)
Lemma Dequeue_chain fuel s ch i j b :
  chain s ch i j -> ch !! S i = Some b ->
  let s' := Store (heap s) (Queue (Some b) (ch !! (j `max` S i))) in
  Dequeue (S (S fuel)) s = Done ((val_at (heap s) b, true), s') /\
  (i < j -> Dequeue (S fuel) s = Done ((val_at (heap s) b, true), s')) /\
  chain s' ch (S i) (j `max` S i).
Proof.
  intros C Hb s'. pose proof (lookup_lt_Some _ _ _ Hb) as Hlt.
  pose proof (chain_le _ _ _ _ C) as Hle.
  destruct (decide (i < j)) as [Hij|Hij].
  - assert (j `max` S i = j) as Hmax by lia.
    assert (s' = Store (heap s) (Queue (Some b) (tail (queue s)))) as ->.
    { unfold s'. by rewrite Hmax, (chain_tail _ _ _ _ C). }
    split_and!.
    + by eapply Dequeue_take.
    + intros _. by eapply Dequeue_take.
    + rewrite Hmax. by apply chain_advance.
  - assert (j = i) as -> by lia.
    assert (i `max` S i = S i) as Hmax by lia.
    pose proof (chain_swing _ _ _ _ C Hlt) as C'.
    assert (Dequeue (S (S fuel)) s = Done (val_at (heap s) b, true, s')) as Hrun.
    { rewrite (Dequeue_help _ _ ch i C Hlt).
      erewrite Dequeue_take; [|exact C'|lia|exact Hb].
      unfold s'. simpl. by rewrite Hmax. }
    split_and!; [done|lia|].
    rewrite Hmax. unfold s'. rewrite Hmax.
    apply (chain_advance _ _ _ _ _ C'); [lia|done].
Qed.

(** ** A single caller refines the sequential FIFO queue *)

Lemma quiescent_New hp : quiescent (New hp) [].
Proof. exists [length hp], 0. split; [apply chain_New|done]. Qed.

Lemma Enqueue_quiescent fuel v s l :
  quiescent s l ->
  exists s', Enqueue (S fuel) v s = Done (tt, s') /\
             quiescent s' (fifo_Enqueue v l).
Proof.
  intros (ch & i & C & Hl).
  pose proof (chain_lt _ _ _ _ C) as Hlt.
  destruct (Enqueue_chain (S fuel) v s ch i _ C ltac:(lia))
    as (a & n & _ & _ & _ & Hrun & C' & Hp).
  eexists. split; [exact Hrun|].
  exists (ch ++ [length (heap s)]), i. split.
  - rewrite length_app. simpl.
    by replace (length ch + 1 - 1) with (length ch) by lia.
  - by rewrite Hp, Hl.
Qed.

Lemma Dequeue_quiescent fuel s l :
  quiescent s l ->
  exists s', Dequeue (S fuel) s = Done (fst (fifo_Dequeue l), s') /\
             quiescent s' (snd (fifo_Dequeue l)) /\
             heap s' = heap s.
Proof.
  intros (ch & i & C & Hl).
  pose proof (chain_head_lt _ _ _ _ C) as Hi.
  destruct (decide (S i = length ch)) as [Hlast|Hlast].
  - assert (l = []) as ->.
    { rewrite <- Hl. unfold pending. by rewrite drop_ge by lia. }
    exists s. split_and!; [|by exists ch, i|done].
    apply Dequeue_is_empty. by eapply chain_is_empty.
  - destruct (lookup_lt_is_Some_2 ch (S i)) as [b Hb]; [lia|].
    destruct (Dequeue_chain fuel s ch i _ b C Hb) as (_ & Hrun & C').
    assert (l = val_at (heap s) b :: pending s ch (S i)) as ->.
    { rewrite <- Hl. unfold pending. by rewrite (drop_S _ _ _ Hb). }
    assert ((length ch - 1) `max` S i = length ch - 1) as Hmax by lia.
    rewrite Hmax in Hrun, C'.
    eexists. split_and!; [apply Hrun; lia| |done].
    by exists ch, (S i).
Qed.

(** Every program of a single caller, run from a quiescent queue, returns,
    with the results of the FIFO queue of the specification, and leaves a
    quiescent queue. *)
Lemma run_refines_fifo fuel ops s l :
  quiescent s l ->
  exists s', run (S fuel) ops s = Done (fst (fifo_run ops l), s') /\
             quiescent s' (snd (fifo_run ops l)).
Proof.
  revert s l. induction ops as [|[v|] ops IH]; intros s l Q.
  - by exists s.
  - destruct (Enqueue_quiescent fuel v s l Q) as (s1 & Hrun & Q1).
    destruct (IH _ _ Q1) as (s' & Hrun' & Q').
    exists s'. cbn [run fifo_run]. by exec Hrun.
  - destruct (Dequeue_quiescent fuel s l Q) as (s1 & Hrun & Q1 & _).
    destruct (IH _ _ Q1) as (s' & Hrun' & Q').
    exists s'. cbn [run fifo_run]. exec Hrun. exec Hrun'. unfold ret.
    destruct (fifo_Dequeue l) as [r l']. cbn [fst snd] in *.
    by destruct (fifo_run ops l') as [rs l''].
Qed.

(** ** The FIFO queue of the specification on programs that enqueue, then
    dequeue *)

Lemma fifo_run_app ops1 ops2 l :
  fifo_run (ops1 ++ ops2) l =
  (fst (fifo_run ops1 l) ++ fst (fifo_run ops2 (snd (fifo_run ops1 l))),
   snd (fifo_run ops2 (snd (fifo_run ops1 l)))).
Proof.
  revert l. induction ops1 as [|[v|] ops1 IH]; intros l; cbn [fifo_run app].
  - cbn [fst snd app]. by destruct (fifo_run ops2 l).
  - apply IH.
  - destruct (fifo_Dequeue l) as [r l']. rewrite IH.
    by destruct (fifo_run ops1 l') as [rs l''].
Qed.

Lemma fifo_run_Enq vs l : fifo_run (map Enq vs) l = ([], l ++ vs).
Proof.
  revert l. induction vs as [|v vs IH]; intros l; cbn [map fifo_run].
  - by rewrite app_nil_r.
  - rewrite IH. unfold fifo_Enqueue. by rewrite <- app_assoc.
Qed.

Lemma fifo_run_Deq k l :
  fifo_run (replicate k Deq) l =
  (map (fun v => (v, true)) (take k l) ++ replicate (k - length l) (zero, false),
   drop k l).
Proof.
  revert l. induction k as [|k IH]; intros l; [done|].
  cbn [replicate fifo_run]. destruct l as [|v l]; cbn [fifo_Dequeue].
  - rewrite IH. by destruct k.
  - by rewrite IH.
Qed.

Lemma successes_app outs1 outs2 :
  successes (outs1 ++ outs2) = successes outs1 ++ successes outs2.
Proof. apply omap_app. Qed.

Lemma successes_true vs : successes (map (fun v => (v, true)) vs) = vs.
Proof. induction vs as [|v vs IH]; [done|]. cbn. by f_equal. Qed.

Lemma successes_false k : successes (replicate k (zero, false)) = [].
Proof. by induction k. Qed.

(** The FIFO queue neither loses nor invents a value: what was enqueued is
    what was returned followed by what is pending. *)
Lemma fifo_run_conserves ops l :
  l ++ enqueued ops = successes (fst (fifo_run ops l)) ++ snd (fifo_run ops l).
Proof.
  revert l. induction ops as [|[v|] ops IH]; intros l; cbn [fifo_run].
  - cbn. by rewrite app_nil_r.
  - rewrite <- IH. unfold fifo_Enqueue. by rewrite <- app_assoc.
  - destruct l as [|x l]; cbn [fifo_Dequeue].
    + specialize (IH []). destruct (fifo_run ops []) as [rs l'']. exact IH.
    + specialize (IH l). destruct (fifo_run ops l) as [rs l''].
      cbn in *. by rewrite <- IH.
Qed.

(** ** What the calls may change, in any store *)

Lemma bind_Done {A B} (m : M A) (k : A -> M B) s r :
  bind m k s = Done r <-> exists a s1, m s = Done (a, s1) /\ k a s1 = Done r.
Proof.
  unfold bind. split.
  - destruct (m s) as [[a s1]| |]; try done. eauto.
  - by intros (a & s1 & -> & Hk).
Qed.

Lemma stable_refl s : stable s s.
Proof. intros a n Hn. eauto. Qed.

Lemma stable_trans s1 s2 s3 : stable s1 s2 -> stable s2 s3 -> stable s1 s3.
Proof.
  intros H12 H23 a n Hn.
  destruct (H12 a n Hn) as (n2 & Hn2 & Hv2 & Hx2).
  destruct (H23 a n2 Hn2) as (n3 & Hn3 & Hv3 & Hx3).
  exists n3. split_and!; [done|congruence|]. intros m Hm. eauto.
Qed.

Lemma stable_heap_eq s s' : heap s' = heap s -> stable s s'.
Proof. intros Hh a n Hn. rewrite Hh. eauto. Qed.

Lemma deref_Done p s an s' :
  deref p s = Done (an, s') ->
  s' = s /\ p = Some (fst an) /\ heap s !! fst an = Some (snd an).
Proof.
  unfold deref. destruct p as [a|]; [|done].
  destruct (heap s !! a) as [n|] eqn:Hn; [|done].
  intros [= <- <-]. cbn [fst snd]. by rewrite Hn.
Qed.

Lemma load_Done c s p s' : load c s = Done (p, s') -> s' = s.
Proof.
  destruct c; cbn [load]; try by intros [= _ <-].
  intros (an & s1 & (-> & _)%deref_Done & [= _ <-])%bind_Done. done.
Qed.

Lemma read_value_Done p s v s' :
  read_value p s = Done (v, s') ->
  s' = s /\ exists a n, p = Some a /\ heap s !! a = Some n /\ v = value n.
Proof.
  intros ([a n] & s1 & (-> & -> & Hn)%deref_Done & [= <- <-])%bind_Done.
  split; [done|]. by exists a, n.
Qed.

(** A compare-and-swap of [head] or [tail] stores to no node. *)
Lemma cas_head_Done old new s b s' :
  cas HeadCell old new s = Done (b, s') ->
  heap s' = heap s /\ tail (queue s') = tail (queue s) /\
  (if b then head (queue s) = old /\ head (queue s') = new else s' = s).
Proof.
  cbn [cas]. destruct (decide (head (queue s) = old)); by intros [= <- <-].
Qed.

Lemma cas_tail_Done old new s b s' :
  cas TailCell old new s = Done (b, s') ->
  heap s' = heap s /\ head (queue s') = head (queue s) /\
  (if b then tail (queue s) = old /\ tail (queue s') = new else s' = s).
Proof.
  cbn [cas]. destruct (decide (tail (queue s) = old)); by intros [= <- <-].
Qed.

(** A compare-and-swap of a [next] field from [nil] stores to a node whose
    [next] is [nil], and only to its [next] field. *)
Lemma cas_next_nil_Done p new s b s' :
  cas (NextCell p) None new s = Done (b, s') ->
  queue s' = queue s /\ stable s s' /\ length (heap s') = length (heap s) /\
  (if b then exists a n, p = Some a /\ heap s !! a = Some n /\ next n = None /\
                         heap s' = <[a := Node (value n) new]> (heap s)
   else s' = s).
Proof.
  cbn [cas]. intros ([a n] & s1 & (-> & -> & Hn)%deref_Done & Hcas)%bind_Done.
  cbn [fst snd] in *. destruct (decide (next n = None)) as [Hnx|Hnx].
  - injection Hcas as <- <-. cbn [queue heap]. split_and!; [done| |by rewrite length_insert|by eauto 6].
    intros a' n' Hn'. cbn [heap]. destruct (decide (a = a')) as [->|Hne].
    + rewrite list_lookup_insert_eq by (by eapply lookup_lt_Some).
      simplify_eq. eexists. split_and!; [done..|]. intros m Hm. congruence.
    + rewrite list_lookup_insert_ne by done. eauto.
  - injection Hcas as <- <-. split_and!; try done. apply stable_refl.
Qed.

Lemma alloc_Done v s p s' :
  alloc v s = Done (p, s') ->
  p = Some (length (heap s)) /\ queue s' = queue s /\
  heap s' = heap s ++ [Node v None] /\ stable s s'.
Proof.
  intros [= <- <-]. split_and!; try done.
  intros a n Hn. exists n. cbn [heap]. split; [by apply lookup_app_l_Some|done].
Qed.

(** [Enqueue] keeps [head], the value of every node and every [next] that is
    not [nil]. *)
Lemma Enqueue_loop_stable fuel node s u s' :
  Enqueue_loop fuel node s = Done (u, s') ->
  head (queue s') = head (queue s) /\ stable s s'.
Proof.
  revert s. induction fuel as [|fuel IH]; intros s; [done|].
  cbn [Enqueue_loop].
  intros (tl & s1 & ->%load_Done & H)%bind_Done.
  apply bind_Done in H as (nx & s1 & ->%load_Done & H).
  apply bind_Done in H as (tl' & s1 & ->%load_Done & H).
  destruct (decide (tl = tl')) as [_|_]; [|by apply IH].
  destruct (decide (nx = None)) as [->|_].
  - apply bind_Done in H as ([] & s1 & Hcas & H).
    + apply cas_next_nil_Done in Hcas as (Hq & Hst & _).
      apply bind_Done in H as (b & s2 & (Hh & Hhd & _)%cas_tail_Done & [= _ <-]).
      split; [by rewrite Hhd, Hq|].
      eapply stable_trans; [exact Hst|by apply stable_heap_eq].
    + apply cas_next_nil_Done in Hcas as (_ & _ & _ & ->). by apply IH.
  - apply bind_Done in H as (b & s1 & (Hh & Hhd & _)%cas_tail_Done & H).
    apply IH in H as [Hhd' Hst]. split; [by rewrite Hhd', Hhd|].
    eapply stable_trans; [by apply stable_heap_eq|exact Hst].
Qed.

Lemma Enqueue_stable fuel v s u s' :
  Enqueue fuel v s = Done (u, s') ->
  head (queue s') = head (queue s) /\ stable s s'.
Proof.
  intros (p & s1 & (_ & Hq & _ & Hst)%alloc_Done & [Hhd Hst']%Enqueue_loop_stable)%bind_Done.
  split; [by rewrite Hhd, Hq|by eapply stable_trans].
Qed.

(** [Dequeue] stores to no node; it moves [head] only when it returns a
    value, to the node the value was read from. *)
Lemma Dequeue_Done fuel s v ok s' :
  Dequeue fuel s = Done ((v, ok), s') ->
  heap s' = heap s /\
  if ok then
    exists b nb, head (queue s') = Some b /\ heap s !! b = Some nb /\ value nb = v
  else v = zero /\ head (queue s') = head (queue s).
Proof.
  revert s. induction fuel as [|fuel IH]; intros s; [done|].
  cbn [Dequeue].
  intros (hd & s1 & ->%load_Done & H)%bind_Done.
  apply bind_Done in H as (tl & s1 & ->%load_Done & H).
  apply bind_Done in H as (nx & s1 & ->%load_Done & H).
  apply bind_Done in H as (hd' & s1 & ->%load_Done & H).
  destruct (decide (hd = hd')) as [_|_]; [|by apply IH].
  destruct (decide (hd = tl)) as [_|_].
  - destruct (decide (nx = None)) as [_|_].
    + by injection H as <- <- <-.
    + apply bind_Done in H as (b & s1 & (Hh & Hhd & _)%cas_tail_Done & H).
      apply IH in H as [Hh' H]. rewrite Hh' , Hh. split; [done|].
      destruct ok; [by rewrite <- Hh|by rewrite <- Hhd].
  - apply bind_Done in H as (x & s1 & (-> & b & nb & -> & Hnb & ->)%read_value_Done & H).
    apply bind_Done in H as ([] & s1 & (Hh & _ & Hcas)%cas_head_Done & H).
    + injection H as <- <- <-. destruct Hcas as [_ Hcas]. split; [done|].
      by exists b, nb.
    + subst s1. by apply IH.
Qed.

(** A program that returned, from a quiescent queue, returned what the FIFO
    queue of the specification returns, whatever the fuel. *)
Lemma run_Done_fifo fuel ops s l outs s' :
  quiescent s l -> run fuel ops s = Done (outs, s') ->
  outs = fst (fifo_run ops l) /\ quiescent s' (snd (fifo_run ops l)).
Proof.
  intros Q Hrun. destruct fuel as [|fuel].
  - destruct ops as [|[v|] ops]; [|done..]. by injection Hrun as <- <-.
  - destruct (run_refines_fifo fuel ops s l Q) as (s1 & Hrun1 & Q1).
    rewrite Hrun1 in Hrun. by injection Hrun as <- <-.
Qed.

(** A quiescent queue with no pending value is empty. *)
Lemma quiescent_nil_is_empty s : quiescent s [] -> is_empty s = true.
Proof.
  intros (ch & i & C & Hp). pose proof (chain_head_lt _ _ _ _ C) as Hi.
  eapply chain_is_empty; [exact C|].
  unfold pending in Hp. apply (f_equal length) in Hp.
  rewrite length_map, length_drop in Hp. simpl in Hp. lia.
Qed.

(** ** What a program of calls may change, in any store *)

Lemma run_stable fuel ops s outs s' :
  run fuel ops s = Done (outs, s') -> stable s s'.
Proof.
  revert s outs. induction ops as [|[v|] ops IH]; intros s outs; cbn [run].
  - intros [= _ <-]. apply stable_refl.
  - intros ([] & s1 & [_ Hst]%Enqueue_stable & Hrun)%bind_Done.
    eapply stable_trans; [exact Hst|by eapply IH].
  - intros ([v ok] & s1 & [Hh _]%Dequeue_Done & Hrun)%bind_Done.
    apply bind_Done in Hrun as (rs & s2 & Hrun & [= _ <-]).
    eapply stable_trans; [by apply stable_heap_eq|by eapply IH].
Qed.

Lemma run_head fuel ops s outs s' :
  run fuel ops s = Done (outs, s') -> successes outs = [] ->
  head (queue s') = head (queue s).
Proof.
  revert s outs. induction ops as [|[v|] ops IH]; intros s outs; cbn [run].
  - by intros [= _ <-].
  - intros ([] & s1 & [Hhd _]%Enqueue_stable & Hrun)%bind_Done Hs.
    rewrite <- Hhd. by eapply IH.
  - intros ([v ok] & s1 & [_ Hd]%Dequeue_Done & Hrun)%bind_Done.
    apply bind_Done in Hrun as (rs & s2 & Hrun & [= <- <-]).
    destruct ok; [done|]. cbn. intros Hs. destruct Hd as [_ <-]. by eapply IH.
Qed.

(** ** Overwriting the value slot of the node [head] points to *)

Lemma chain_set_value s ch i j h x :
  chain s ch i j -> chain (set_value h x s) ch i j.
Proof.
  intros C. unfold set_value. destruct (heap s !! h) as [nh|] eqn:Hnh; [|done].
  split; cbn [queue heap]; try apply C.
  intros k a Hk. destruct (chain_link _ _ _ _ C k a Hk) as (n & Hn & Hnx).
  destruct (decide (h = a)) as [->|Hne].
  - rewrite list_lookup_insert_eq by (by eapply lookup_lt_Some).
    simplify_eq. by eexists.
  - rewrite list_lookup_insert_ne by done. by exists n.
Qed.

Lemma val_at_set_value s h x a :
  a <> h -> val_at (heap (set_value h x s)) a = val_at (heap s) a.
Proof.
  intros Hne. unfold set_value, val_at.
  destruct (heap s !! h) as [nh|]; [|done]. cbn [heap].
  by rewrite list_lookup_insert_ne.
Qed.

Lemma quiescent_set_value s l h x :
  quiescent s l -> head (queue s) = Some h -> quiescent (set_value h x s) l.
Proof.
  intros (ch & i & C & Hp) Hh. exists ch, i. split; [by apply chain_set_value|].
  rewrite <- Hp. unfold pending. apply map_ext_in. intros a Ha%list_elem_of_In.
  apply val_at_set_value. intros ->.
  rewrite (chain_head _ _ _ _ C) in Hh.
  apply list_elem_of_lookup in Ha as [k Hk]. rewrite lookup_drop in Hk.
  pose proof (chain_inj _ _ _ _ _ _ _ C Hh Hk). lia.
Qed.

(** * The properties of the specification *)

(** C5. [New] allocates exactly one node, at an address that was not in use,
    whose value is the zero value and whose [next] is [nil], and sets both
    [head] and [tail] to it; [New] is a total function, it cannot fail.  So
    on a fresh queue [head] and [tail] are equal, loading the [next] of
    [head] gives [nil] and changes nothing, and the queue is empty. *)
Theorem New_one_dummy_node hp :
  exists a,
    hp !! a = None /\
    heap (New hp) = hp ++ [Node zero None] /\
    heap (New hp) !! a = Some (Node zero None) /\
    head (queue (New hp)) = Some a /\
    tail (queue (New hp)) = Some a /\
    head (queue (New hp)) = tail (queue (New hp)) /\
    load (NextCell (head (queue (New hp)))) (New hp) = Done (None, New hp) /\
    is_empty (New hp) = true.
Proof.
  exists (length hp).
  assert ((hp ++ [Node zero None]) !! length hp = Some (Node zero None)) as Hd.
  { by rewrite lookup_app_r, Nat.sub_diag. }
  split_and!; try done.
  - by apply lookup_ge_None_2.
  - unfold New, load, bind, deref. cbn [queue head heap]. by rewrite Hd.
  - eapply chain_is_empty; [apply chain_New|done].
Qed.

(** C1. A single caller enqueues the values [vs] and then calls [Dequeue]
    [k] times: every call returns, the first [k] values of [vs] come back
    with [ok = true] in the order they were passed to [Enqueue], and the
    calls after the last value return the zero value with [ok = false].
    In any program of a single caller, with the calls in any order, the
    values of the successful [Dequeue] calls are a prefix of the values
    passed to [Enqueue]. *)
Theorem Dequeue_in_Enqueue_order hp fuel :
  (forall vs k, exists s,
      run (S fuel) (map Enq vs ++ replicate k Deq) (New hp) =
      Done (map (fun v => (v, true)) (take k vs) ++
            replicate (k - length vs) (zero, false), s) /\
      successes (map (fun v => (v, true)) (take k vs) ++
                 replicate (k - length vs) (zero, false)) = take k vs) /\
  (forall ops, exists outs s,
      run (S fuel) ops (New hp) = Done (outs, s) /\
      successes outs `prefix_of` enqueued ops).
Proof.
  split.
  - intros vs k.
    destruct (run_refines_fifo fuel (map Enq vs ++ replicate k Deq) _ _
                (quiescent_New hp)) as (s & Hrun & _).
    rewrite fifo_run_app, fifo_run_Enq, fifo_run_Deq in Hrun.
    cbn [fst snd app] in Hrun. exists s. split; [exact Hrun|].
    by rewrite successes_app, successes_true, successes_false, app_nil_r.
  - intros ops.
    destruct (run_refines_fifo fuel ops _ _ (quiescent_New hp)) as (s & Hrun & _).
    eexists _, s. split; [exact Hrun|].
    exists (snd (fifo_run ops [])). apply (fifo_run_conserves ops []).
Qed.

(** C2. A single caller enqueues the values [vs] and then calls [Dequeue]
    once more than there are values: exactly the first [length vs] calls
    succeed, the last one returns [ok = false], and the values returned are
    those enqueued, each as often as it was enqueued. *)
Theorem no_loss_no_duplication hp fuel vs :
  exists outs s,
    run (S fuel) (map Enq vs ++ replicate (S (length vs)) Deq) (New hp) =
    Done (outs, s) /\
    outs = map (fun v => (v, true)) vs ++ [(zero, false)] /\
    successes outs ≡ₚ vs.
Proof.
  destruct (run_refines_fifo fuel (map Enq vs ++ replicate (S (length vs)) Deq)
              _ _ (quiescent_New hp)) as (s & Hrun & _).
  rewrite fifo_run_app, fifo_run_Enq, fifo_run_Deq in Hrun.
  cbn [fst snd app] in Hrun.
  rewrite take_ge in Hrun by lia.
  replace (S (length vs) - length vs) with 1 in Hrun by lia.
  eexists _, s. split_and!; [exact Hrun|done|].
  by rewrite successes_app, successes_true, (successes_false 1), app_nil_r.
Qed.

(** C3. [Dequeue] on a fresh queue returns the zero value with [ok = false]
    and leaves the store as it was; so does [Dequeue] on the queue a single
    caller is left with after any program in which as many [Dequeue] calls
    succeeded as there were [Enqueue] calls. *)
Theorem Dequeue_empty_contract hp fuel fuel' ops outs s :
  Dequeue (S fuel) (New hp) = Done ((zero, false), New hp) /\
  (run fuel' ops (New hp) = Done (outs, s) ->
   length (successes outs) = length (enqueued ops) ->
   Dequeue (S fuel) s = Done ((zero, false), s)).
Proof.
  split.
  - apply Dequeue_is_empty, quiescent_nil_is_empty, quiescent_New.
  - intros Hrun Hlen.
    destruct (run_Done_fifo _ _ _ _ _ _ (quiescent_New hp) Hrun) as [-> Q].
    pose proof (fifo_run_conserves ops []) as Hc. apply (f_equal length) in Hc.
    rewrite !length_app in Hc.
    destruct (snd (fifo_run ops [])) as [|x l] eqn:Hl; [|cbn [length] in Hc; lia].
    apply Dequeue_is_empty, quiescent_nil_is_empty, Q.
Qed.

(** C8. On every empty queue, any number of [Dequeue] calls in a row each
    return the zero value with [ok = false], and the store after them (the
    nodes, [head] and [tail]) is the store before them. *)
Theorem Dequeue_empty_idempotent fuel s k :
  is_empty s = true ->
  run (S fuel) (replicate k Deq) s = Done (replicate k (zero, false), s).
Proof.
  intros He. induction k as [|k IH]; [done|].
  cbn [replicate run]. exec (Dequeue_is_empty fuel s He). by exec IH.
Qed.

(** C9. A fresh queue has the shape of a linked list from [head] to [nil]
    with [tail] on one of its nodes, and both calls return on every queue
    of that shape and leave a queue of that shape, whether the tail lags or
    not: [Enqueue] returns once the fuel covers the lag of the tail and one
    more iteration; [Dequeue] returns within two iterations, in the first
    one when the tail does not lag; and [Dequeue] on an empty queue returns
    in its first iteration with [ok = false] and the store unchanged. *)
Theorem Enqueue_Dequeue_return :
  (forall hp, chain (New hp) [length hp] 0 0) /\
  (forall s ch i j, chain s ch i j ->
     (forall fuel v, length ch - j <= fuel ->
        exists s' ch',
          Enqueue fuel v s = Done (tt, s') /\ chain s' ch' i (length ch' - 1)) /\
     (forall fuel, exists r s' i' j',
          Dequeue (S (S fuel)) s = Done (r, s') /\ chain s' ch i' j') /\
     (S j = length ch ->
        forall fuel, exists r s' i',
          Dequeue (S fuel) s = Done (r, s') /\ chain s' ch i' j) /\
     (forall fuel, is_empty s = true ->
        Dequeue (S fuel) s = Done ((zero, false), s))).
Proof.
  split; [apply chain_New|]. intros s ch i j C.
  pose proof (chain_head_lt _ _ _ _ C) as Hi.
  pose proof (chain_le _ _ _ _ C) as Hle.
  split_and!.
  - intros fuel v Hf.
    destruct (Enqueue_chain fuel v s ch i j C Hf)
      as (a & n & _ & _ & _ & Hrun & C' & _).
    eexists _, (ch ++ [length (heap s)]). split; [exact Hrun|].
    rewrite length_app. cbn [length].
    by replace (length ch + 1 - 1) with (length ch) by lia.
  - intros fuel. destruct (decide (S i = length ch)) as [Hlast|Hlast].
    + exists (zero, false), s, i, j. split; [|done].
      apply Dequeue_is_empty. by eapply chain_is_empty.
    + destruct (lookup_lt_is_Some_2 ch (S i)) as [b Hb]; [lia|].
      destruct (Dequeue_chain fuel s ch i j b C Hb) as (Hrun & _ & C'). eauto 6.
  - intros Hj fuel. destruct (decide (S i = length ch)) as [Hlast|Hlast].
    + exists (zero, false), s, i. split; [|done].
      apply Dequeue_is_empty. by eapply chain_is_empty.
    + destruct (lookup_lt_is_Some_2 ch (S i)) as [b Hb]; [lia|].
      destruct (Dequeue_chain fuel s ch i j b C Hb) as (_ & Hrun & C').
      replace (j `max` S i) with j in * by lia.
      eexists _, _, (S i). split; [apply Hrun; lia|exact C'].
  - intros fuel He. by apply Dequeue_is_empty.
Qed.

(** C10. In any store, after a [Dequeue] that returned [(v, true)] the node
    [head] points to holds [v] in its value slot; and it still does, with
    [head] on the same node, after any later calls among which no [Dequeue]
    succeeded. *)
Theorem dequeued_value_stays_in_head fuel s v s' :
  Dequeue fuel s = Done ((v, true), s') ->
  exists b nb,
    head (queue s') = Some b /\ heap s' !! b = Some nb /\ value nb = v /\
    forall fuel' ops outs s'',
      run fuel' ops s' = Done (outs, s'') -> successes outs = [] ->
      head (queue s'') = Some b /\
      exists nb', heap s'' !! b = Some nb' /\ value nb' = v.
Proof.
  intros [Hheap (b & nb & Hb & Hnb & Hv)]%Dequeue_Done.
  exists b, nb. rewrite Hheap. split_and!; try done.
  intros fuel' ops outs s'' Hrun Hs.
  rewrite (run_head _ _ _ _ _ Hrun Hs). split; [done|].
  rewrite <- Hheap in Hnb.
  destruct (run_stable _ _ _ _ _ Hrun b nb Hnb) as (nb' & Hnb' & Hv' & _).
  exists nb'. split; [done|congruence].
Qed.
(** * Further properties of the code *)

(** ** The calls in any store *)

(** X1. [Dequeue] in any store from which it returns.  It stores to no node.
    With [ok = false] the value is the zero value, the store is the one
    before the call, and the queue was empty.  With [ok = true] the value
    is that of the successor of the node [head] pointed to, [head] is on
    that successor, and [tail] has moved, to the same node, only if it was
    on the node [head] pointed to. *)
Theorem Dequeue_result_any_store fuel s v ok s' :
  Dequeue fuel s = Done ((v, ok), s') ->
  heap s' = heap s /\
  exists a n,
    head (queue s) = Some a /\ heap s !! a = Some n /\
    if ok then
      exists b nb,
        next n = Some b /\ heap s !! b = Some nb /\ v = value nb /\
        head (queue s') = Some b /\
        tail (queue s') =
          (if decide (tail (queue s) = Some a) then Some b else tail (queue s))
    else v = zero /\ s' = s /\ is_empty s = true.
Proof.
  revert s. induction fuel as [|fuel IH]; intros s; [done|].
  cbn [Dequeue].
  intros (hd & s1 & Hl1 & H)%bind_Done. injection Hl1 as <- <-.
  apply bind_Done in H as (tl & s1 & Hl2 & H). injection Hl2 as <- <-.
  apply bind_Done in H as (nx & s1 & Hl3 & H).
  cbn [load] in Hl3.
  apply bind_Done in Hl3 as ([a n] & s2 & (-> & Ha & Hn)%deref_Done & [= <- <-]).
  cbn [fst snd] in *.
  apply bind_Done in H as (hd' & s1 & Hl4 & H). injection Hl4 as <- <-.
  rewrite decide_True in H by done.
  destruct (decide (head (queue s) = tail (queue s))) as [Hht|Hht].
  - destruct (decide (next n = None)) as [Hnx|Hnx].
    + injection H as <- <- <-. split; [done|]. exists a, n.
      split_and!; try done. apply is_empty_true. split; [done|]. by exists a, n.
    + apply bind_Done in H as (b & s1 & Hcas & H).
      cbn [cas] in Hcas. rewrite decide_True in Hcas by done.
      injection Hcas as <- <-.
      apply IH in H as (Hheap & a' & n' & Ha' & Hn' & H).
      cbn [heap queue head tail] in *.
      assert (a' = a) as -> by congruence.
      assert (n' = n) as -> by congruence.
      split; [done|]. exists a, n. split_and!; try done.
      destruct ok.
      * destruct H as (b & nb & Hb & Hnb & -> & Hhd & Htl).
        exists b, nb. split_and!; try done.
        rewrite Htl, <- Hht, Ha, Hb. rewrite (decide_True (P:=Some a = Some a)) by done.
        by destruct (decide (Some b = Some a)).
      * destruct H as (_ & _ & (_ & a2 & n2 & Ha2 & Hn2 & Hnx2)%is_empty_true).
        cbn [heap queue head] in *. congruence.
  - apply bind_Done in H as (x & s1 & (-> & b & nb & Hb & Hnb & ->)%read_value_Done & H).
    apply bind_Done in H as (sw & s1 & Hcas & H).
    cbn [cas] in Hcas. rewrite decide_True in Hcas by done.
    injection Hcas as <- <-. injection H as <- <- <-.
    split; [done|]. exists a, n. split_and!; try done.
    exists b, nb. split_and!; try done. cbn [queue tail].
    rewrite decide_False; [done|]. by rewrite <- Ha.
Qed.

Lemma Enqueue_loop_result fuel node s u s' :
  Enqueue_loop fuel node s = Done (u, s') ->
  head (queue s') = head (queue s) /\ tail (queue s') = node /\
  exists a n,
    heap s !! a = Some n /\ next n = None /\
    heap s' = <[a := Node (value n) node]> (heap s).
Proof.
  revert s. induction fuel as [|fuel IH]; intros s; [done|].
  cbn [Enqueue_loop].
  intros (tl & s1 & Hl1 & H)%bind_Done. injection Hl1 as <- <-.
  apply bind_Done in H as (nx & s1 & Hl2 & H). cbn [load] in Hl2.
  apply bind_Done in Hl2 as ([a n] & s2 & (-> & Ha & Hn)%deref_Done & [= <- <-]).
  cbn [fst snd] in *.
  apply bind_Done in H as (tl' & s1 & Hl3 & H). injection Hl3 as <- <-.
  rewrite decide_True in H by done.
  destruct (decide (next n = None)) as [Hnx|Hnx].
  - rewrite Ha in H. rewrite (bind_eq _ _ _ _ _ (cas_next_ok s a n _ node Hn eq_refl)) in H.
    cbv beta in H.
    rewrite (bind_eq _ _ _ _ _
               (cas_tail_ok (Store (<[a := Node (value n) node]> (heap s)) (queue s))
                            _ node Ha)) in H.
    injection H as <- <-. split_and!; try done. by exists a, n.
  - rewrite (bind_eq _ _ _ _ _ (cas_tail_ok s _ (next n) eq_refl)) in H.
    apply IH in H as (Hhd & Htl & a' & n' & Hn' & Hnx' & Hheap).
    split_and!; try done. by exists a', n'.
Qed.

(** X2. [Enqueue] in any store from which it returns, whatever the number of
    iterations it took: it has allocated exactly one node; [head] has not
    moved; [tail] is on the new node; and the only store to a node that
    existed is that of the address of the new node in a [next] field that
    was [nil]. *)
Theorem Enqueue_result_any_store fuel v s u s' :
  Enqueue fuel v s = Done (u, s') ->
  head (queue s') = head (queue s) /\
  tail (queue s') = Some (length (heap s)) /\
  length (heap s') = S (length (heap s)) /\
  exists a n,
    (heap s ++ [Node v None]) !! a = Some n /\ next n = None /\
    heap s' = <[a := Node (value n) (Some (length (heap s)))]>
                (heap s ++ [Node v None]).
Proof.
  unfold Enqueue. rewrite (bind_eq _ _ _ _ _ (eq_refl (alloc v s))).
  intros (Hhd & Htl & a & n & Hn & Hnx & Hheap)%Enqueue_loop_result.
  cbn [heap queue] in *. split_and!; try done.
  - rewrite Hheap, length_insert, length_app. cbn [length]. lia.
  - by exists a, n.
Qed.

(** X3. The zero value of [LockFreeQueue], with [nil] for [head] and [tail], is
    not a queue: [Enqueue] panics when [tail] is [nil] and [Dequeue] panics
    when [head] is [nil], in their first iteration, whatever the memory
    holds. *)
Theorem nil_queue_panics fuel v s :
  (tail (queue s) = None -> Enqueue (S fuel) v s = Panic) /\
  (head (queue s) = None -> Dequeue (S fuel) s = Panic).
Proof.
  split.
  - intros Ht. unfold Enqueue. exec (eq_refl (alloc v s)).
    cbn [Enqueue_loop].
    by exec (load_tail (Store (heap s ++ [Node v None]) (queue s)) None Ht).
  - intros Hh. cbn [Dequeue].
    exec (load_head s None Hh). by exec (eq_refl (load TailCell s)).
Qed.

(** ** Every empty queue is as good as a fresh one *)

Lemma is_empty_chain s :
  is_empty s = true -> exists a, chain s [a] 0 0.
Proof.
  intros (Hht & a & n & Ha & Hn & Hnx)%is_empty_true. exists a.
  split; cbn [length]; try done; try lia.
  - apply NoDup_singleton.
  - by rewrite <- Hht.
  - intros [|k] b Hk; simplify_eq/=. by exists n.
Qed.

Lemma is_empty_quiescent s : is_empty s = true -> quiescent s [].
Proof. intros [a C]%is_empty_chain. by exists [a], 0. Qed.

(** X4. A single caller gets from any empty queue, whatever else the memory
    holds, exactly the results of the FIFO queue of the specification
    started empty, every call finishing in its first iteration; and when
    that FIFO queue ends empty, so does the queue. *)
Theorem empty_queue_refines_fifo fuel s ops :
  is_empty s = true ->
  exists s',
    run (S fuel) ops s = Done (fst (fifo_run ops []), s') /\
    (snd (fifo_run ops []) = [] -> is_empty s' = true).
Proof.
  intros Q%is_empty_quiescent.
  destruct (run_refines_fifo fuel ops s [] Q) as (s' & Hrun & Q').
  exists s'. split; [done|]. intros Hnil. rewrite Hnil in Q'.
  by apply quiescent_nil_is_empty.
Qed.

(** X5. Between the calls of a single caller the tail never lags: after any
    program run from an empty queue, [head] and [tail] point to nodes and
    the node [tail] points to has no successor, so the branches of the two
    loops that help a lagging tail forward are not taken. *)
Theorem single_caller_tail_never_lags fuel s ops :
  is_empty s = true ->
  exists outs s' h t nt,
    run (S fuel) ops s = Done (outs, s') /\
    head (queue s') = Some h /\ tail (queue s') = Some t /\
    heap s' !! t = Some nt /\ next nt = None.
Proof.
  intros Q%is_empty_quiescent.
  destruct (run_refines_fifo fuel ops s [] Q) as (s' & Hrun & ch & i & C & _).
  pose proof (chain_lt _ _ _ _ C) as Hlt.
  pose proof (chain_head_lt _ _ _ _ C) as Hi.
  destruct (chain_at _ _ _ _ i C Hi) as (h & _ & Hh & _).
  destruct (chain_at _ _ _ _ (length ch - 1) C Hlt) as (t & nt & Ht & Hnt & Hnx).
  rewrite (lookup_ge_None_2 ch (S (length ch - 1))) in Hnx by lia.
  eexists _, s', h, t, nt. split_and!; try done.
  - by rewrite (chain_head _ _ _ _ C).
  - by rewrite (chain_tail _ _ _ _ C).
Qed.

(** ** Queues whose tail lags *)

(** X6. A single caller gets from any queue of the shape of a linked list,
    whether its tail lags or not, the results of the FIFO queue of the
    specification started with the values of the nodes after [head], once
    the fuel covers two iterations and the lag of the tail. *)
Theorem lagging_queue_refines_fifo fuel ops s ch i j :
  chain s ch i j -> 2 <= fuel -> length ch - j <= fuel ->
  exists s' ch' i' j',
    run fuel ops s = Done (fst (fifo_run ops (pending s ch i)), s') /\
    chain s' ch' i' j' /\
    pending s' ch' i' = snd (fifo_run ops (pending s ch i)).
Proof.
  intros C Hf2. revert s ch i j C.
  induction ops as [|[v|] ops IH]; intros s ch i j C Hf.
  - by exists s, ch, i, j.
  - destruct (Enqueue_chain fuel v s ch i j C Hf)
      as (a & n & _ & _ & _ & Hrun & C' & Hp).
    cbv zeta in Hrun, C', Hp.
    edestruct (IH _ _ _ _ C') as (s' & ch' & i' & j' & Hrun' & C'' & Hp').
    { rewrite length_app. cbn [length]. lia. }
    exists s', ch', i', j'. cbn [run fifo_run]. exec Hrun.
    unfold fifo_Enqueue. rewrite <- Hp. exact (conj Hrun' (conj C'' Hp')).
  - pose proof (chain_head_lt _ _ _ _ C) as Hi.
    destruct fuel as [|[|fuel]]; try lia.
    destruct (decide (S i = length ch)) as [Hlast|Hlast].
    + assert (pending s ch i = []) as Hp.
      { unfold pending. by rewrite drop_ge by lia. }
      destruct (IH _ _ _ _ C Hf) as (s' & ch' & i' & j' & Hrun' & C' & Hp').
      exists s', ch', i', j'. cbn [run fifo_run].
      exec (Dequeue_is_empty (S fuel) s (chain_is_empty _ _ _ _ C Hlast)).
      exec Hrun'. rewrite Hp in *. cbn [fifo_Dequeue]. unfold ret.
      destruct (fifo_run ops []) as [rs l'']. by split_and!.
    + destruct (lookup_lt_is_Some_2 ch (S i)) as [b Hb]; [lia|].
      destruct (Dequeue_chain fuel s ch i j b C Hb) as (Hrun & _ & C').
      cbv zeta in Hrun, C'.
      assert (pending s ch i = val_at (heap s) b :: pending s ch (S i)) as Hp.
      { unfold pending. by rewrite (drop_S _ _ _ Hb). }
      edestruct (IH _ _ _ _ C') as (s' & ch' & i' & j' & Hrun' & C'' & Hp').
      { lia. }
      change (pending (Store (heap s) (Queue (Some b) (ch !! (j `max` S i)))) ch (S i))
        with (pending s ch (S i)) in Hrun', Hp'.
      exists s', ch', i', j'. cbn [run fifo_run]. exec Hrun. exec Hrun'.
      rewrite Hp. cbn [fifo_Dequeue]. unfold ret.
      destruct (fifo_run ops (pending s ch (S i))) as [rs l'']. by split_and!.
Qed.

(** X7. The tail is helped forward by one node in each iteration: on a queue
    of the shape of a linked list, [Enqueue] does not return in fewer
    iterations than the lag of the tail and one more, and [Dequeue] does
    not return in its first iteration when [tail] is on the node [head]
    points to and that node has a successor. *)
Theorem helping_takes_iterations s ch i j :
  chain s ch i j ->
  (forall fuel v, fuel < length ch - j -> Enqueue fuel v s = OutOfFuel) /\
  (i = j -> S i < length ch -> Dequeue 1 s = OutOfFuel).
Proof.
  intros C. split.
  - intros fuel v Hf. unfold Enqueue. exec (eq_refl (alloc v s)).
    pose proof (chain_alloc s ch i j v C) as C'.
    set (s1 := Store (heap s ++ [Node v None]) (queue s)) in *.
    clearbody s1. clear C. revert s1 j C' Hf.
    induction fuel as [|fuel IH]; intros s1 j C Hf; [done|].
    rewrite (Enqueue_loop_help fuel s1 ch i j) by (done || lia).
    apply (IH _ (S j)); [|lia]. apply chain_swing; [done|lia].
  - intros <- Hi. by rewrite (Dequeue_help 0 s ch i C Hi).
Qed.

(** ** Several queues in one memory *)

(** A list keeps its shape and its pending values in any memory that
    holds its nodes unchanged. *)
Lemma chain_frame hp hp' q ch i j :
  chain (Store hp q) ch i j ->
  (forall b, b ∈ ch -> hp' !! b = hp !! b) ->
  chain (Store hp' q) ch i j /\
  pending (Store hp' q) ch i = pending (Store hp q) ch i.
Proof.
  intros C Hsame. split.
  - split; cbn [queue heap]; try apply C.
    intros k a Hk. rewrite Hsame by (by eapply list_elem_of_lookup_2).
    apply (chain_link _ _ _ _ C k a Hk).
  - unfold pending. cbn [heap]. apply map_ext_in. intros a Ha%list_elem_of_In.
    unfold val_at. rewrite Hsame; [done|]. eapply subseteq_drop, Ha.
Qed.

(** [Dequeue] on a queue whose tail does not lag, with the list kept. *)
Lemma Dequeue_chain_quiescent fuel s ch i :
  chain s ch i (length ch - 1) ->
  exists s' i',
    Dequeue (S fuel) s = Done (fst (fifo_Dequeue (pending s ch i)), s') /\
    chain s' ch i' (length ch - 1) /\
    pending s' ch i' = snd (fifo_Dequeue (pending s ch i)) /\
    heap s' = heap s.
Proof.
  intros C. pose proof (chain_head_lt _ _ _ _ C) as Hi.
  destruct (decide (S i = length ch)) as [Hlast|Hlast].
  - assert (pending s ch i = []) as Hp.
    { unfold pending. by rewrite drop_ge by lia. }
    exists s, i. rewrite Hp. split_and!; try done.
    apply Dequeue_is_empty. by eapply chain_is_empty.
  - destruct (lookup_lt_is_Some_2 ch (S i)) as [b Hb]; [lia|].
    destruct (Dequeue_chain fuel s ch i _ b C Hb) as (_ & Hrun & C').
    cbv zeta in Hrun, C'.
    assert ((length ch - 1) `max` S i = length ch - 1) as Hmax by lia.
    rewrite Hmax in Hrun, C'.
    assert (pending s ch i = val_at (heap s) b :: pending s ch (S i)) as Hp.
    { unfold pending. by rewrite (drop_S _ _ _ Hb). }
    eexists _, (S i). rewrite Hp. split_and!; [apply Hrun; lia|exact C'|done..].
Qed.

Lemma separate_sym hp qa qb la lb :
  separate hp qa qb la lb -> separate hp qb qa lb la.
Proof.
  intros (cha & ia & chb & ib & Ca & Hpa & Cb & Hpb & Hdis).
  exists chb, ib, cha, ia. split_and!; try done. intros a Hb Ha. eauto.
Qed.

Lemma separate_Enqueue fuel v hp qa qb la lb :
  separate hp qa qb la lb ->
  exists s',
    Enqueue (S fuel) v (Store hp qa) = Done (tt, s') /\
    separate (heap s') (queue s') qb (fifo_Enqueue v la) lb.
Proof.
  intros (cha & ia & chb & ib & Ca & Hpa & Cb & Hpb & Hdis).
  pose proof (chain_lt _ _ _ _ Ca) as Hlt.
  destruct (Enqueue_chain (S fuel) v _ cha ia _ Ca ltac:(lia))
    as (a & n & Ha & Hn & _ & Hrun & Ca' & Hpa').
  cbv zeta in Hrun, Ca', Hpa'. cbn [heap queue head] in *.
  eexists. split; [exact Hrun|]. cbn [heap queue].
  assert (forall b, b ∈ chb ->
            <[a := Node (value n) (Some (length hp))]> (hp ++ [Node v None]) !! b
            = hp !! b) as Hsame.
  { intros b Hb. pose proof (chain_alloc_lt _ _ _ _ _ Cb Hb) as Hblt.
    cbn [heap] in Hblt.
    rewrite list_lookup_insert_ne, lookup_app_l; [done..|].
    intros ->. eapply Hdis; [|exact Hb]. by eapply list_elem_of_lookup_2. }
  destruct (chain_frame _ _ _ _ _ _ Cb Hsame) as [Cb' Hpb'].
  exists (cha ++ [length hp]), ia, chb, ib. split_and!.
  - rewrite length_app. cbn [length].
    by replace (length cha + 1 - 1) with (length cha) by lia.
  - unfold fifo_Enqueue. by rewrite <- Hpa.
  - exact Cb'.
  - by rewrite Hpb'.
  - intros b [Hb| ->%list_elem_of_singleton]%elem_of_app Hb'; [by eauto|].
    pose proof (chain_alloc_lt _ _ _ _ _ Cb Hb') as Hblt. cbn [heap] in Hblt. lia.
Qed.

Lemma separate_Dequeue fuel hp qa qb la lb :
  separate hp qa qb la lb ->
  exists s',
    Dequeue (S fuel) (Store hp qa) = Done (fst (fifo_Dequeue la), s') /\
    separate (heap s') (queue s') qb (snd (fifo_Dequeue la)) lb.
Proof.
  intros (cha & ia & chb & ib & Ca & Hpa & Cb & Hpb & Hdis).
  destruct (Dequeue_chain_quiescent fuel _ cha ia Ca)
    as (s' & ia' & Hrun & Ca' & Hpa' & Hheap).
  rewrite Hpa in Hrun, Hpa'. cbn [heap] in Hheap.
  exists s'. split; [exact Hrun|].
  exists cha, ia', chb, ib. rewrite Hheap.
  assert (Store hp (queue s') = s') as Hs'.
  { destruct s' as [hp' q']. cbn in *. by subst. }
  rewrite Hs'. by split_and!.
Qed.

(** X8. Queues in one memory do not interfere.  A queue made by [New] in the
    memory of a queue shares no node with it and leaves it its pending
    values.  Of two queues that share no node, any program of calls on one
    returns the results of the FIFO queue of the specification for its own
    pending values and leaves the other queue its pending values, whatever
    order the two are used in. *)
Theorem queues_do_not_interfere :
  (forall s l, quiescent s l ->
     separate (heap (New (heap s))) (queue s) (queue (New (heap s))) l []) /\
  (forall hp qa qb la lb,
     separate hp qa qb la lb -> separate hp qb qa lb la) /\
  (forall fuel ops hp qa qb la lb,
     separate hp qa qb la lb ->
     exists s',
       run (S fuel) ops (Store hp qa) = Done (fst (fifo_run ops la), s') /\
       separate (heap s') (queue s') qb (snd (fifo_run ops la)) lb).
Proof.
  split_and!.
  - intros s l (ch & i & C & Hp).
    assert (forall b, b ∈ ch -> (heap s ++ [Node zero None]) !! b = heap s !! b)
      as Hsame.
    { intros b Hb. apply lookup_app_l. by eapply chain_alloc_lt. }
    assert (chain (Store (heap s) (queue s)) ch i (length ch - 1)) as C0.
    { by destruct s. }
    destruct (chain_frame _ _ _ _ _ _ C0 Hsame) as [C' Hp'].
    exists ch, i, [length (heap s)], 0. unfold New. cbn [heap queue]. split_and!.
    + exact C'.
    + rewrite Hp'. by destruct s.
    + exact (chain_New (heap s)).
    + done.
    + intros b Hb ->%list_elem_of_singleton.
      pose proof (chain_alloc_lt _ _ _ _ _ C Hb). lia.
  - apply separate_sym.
  - intros fuel ops. induction ops as [|[v|] ops IH]; intros hp qa qb la lb Hsep.
    + by exists (Store hp qa).
    + destruct (separate_Enqueue fuel v _ _ _ _ _ Hsep) as (s1 & Hrun & Hsep1).
      destruct (IH _ _ _ _ _ Hsep1) as (s' & Hrun' & Hsep').
      assert (Store (heap s1) (queue s1) = s1) as Hs1 by (by destruct s1).
      rewrite Hs1 in Hrun'.
      exists s'. cbn [run fifo_run]. by exec Hrun.
    + destruct (separate_Dequeue fuel _ _ _ _ _ Hsep) as (s1 & Hrun & Hsep1).
      destruct (IH _ _ _ _ _ Hsep1) as (s' & Hrun' & Hsep').
      assert (Store (heap s1) (queue s1) = s1) as Hs1 by (by destruct s1).
      rewrite Hs1 in Hrun'.
      exists s'. cbn [run fifo_run]. exec Hrun. exec Hrun'. unfold ret.
      destruct (fifo_Dequeue la) as [r l']. cbn [fst snd] in *.
      by destruct (fifo_run ops l') as [rs l''].
Qed.

(** ** A single caller, between its calls *)

(** X11. In any store, whatever calls are made, every node keeps its value
    and a [next] that is not [nil] stays what it is.  In every store a
    single caller reaches from a fresh queue the calls do return, and
    there [Enqueue] stores to exactly one [next] field, that of a node whose
    [next] is [nil], and what it stores is the address of the node it has
    just allocated, while [Dequeue] stores to no node. *)
Theorem single_caller_next_written_once :
  (forall fuel ops s outs s',
      run fuel ops s = Done (outs, s') ->
      forall a n m, heap s !! a = Some n -> next n = Some m ->
        exists n', heap s' !! a = Some n' /\ value n' = value n /\
                   next n' = Some m) /\
  (forall hp fuel ops, exists outs s,
      run (S fuel) ops (New hp) = Done (outs, s) /\
      (forall v, exists a n,
          heap s !! a = Some n /\ next n = None /\
          Enqueue (S fuel) v s =
          Done (tt, Store (<[a := Node (value n) (Some (length (heap s)))]>
                             (heap s ++ [Node v None]))
                          (Queue (head (queue s)) (Some (length (heap s)))))) /\
      (exists r s', Dequeue (S fuel) s = Done (r, s') /\ heap s' = heap s)).
Proof.
  split.
  - intros fuel ops s outs s' Hrun a n m Hn Hm.
    destruct (run_stable _ _ _ _ _ Hrun a n Hn) as (n' & Hn' & Hv & Hx).
    exists n'. split_and!; [done..|]. by apply Hx.
  - intros hp fuel ops.
    destruct (run_refines_fifo fuel ops _ _ (quiescent_New hp)) as (s & Hrun & Q).
    eexists _, s. split_and!; [exact Hrun| |].
    + intros v. destruct Q as (ch & i & C & _).
      pose proof (chain_lt _ _ _ _ C) as Hlt.
      destruct (Enqueue_chain (S fuel) v s ch i _ C ltac:(lia))
        as (a & n & _ & Hn & Hnx & Hrun' & _).
      by exists a, n.
    + destruct (Dequeue_quiescent fuel s _ Q) as (s' & Hrun' & _ & Hh). eauto.
Qed.

(** The node [head] points to holds the value of the last successful
    [Dequeue], in any store. *)
Lemma run_head_holds d fuel ops s o outs s' :
  head_holds d s o -> run fuel ops s = Done (outs, s') ->
  head_holds d s' (match last (successes outs) with Some v => Some v | None => o end).
Proof.
  revert s o outs. induction ops as [|[v|] ops IH]; intros s o outs HH; cbn [run].
  - by intros [= <- <-].
  - intros ([] & s1 & [Hhd Hst]%Enqueue_stable & Hrun)%bind_Done.
    eapply IH; [|exact Hrun].
    destruct HH as (h & hn & Hh & Hn & Ho).
    destruct (Hst h hn Hn) as (hn' & Hn' & Hv & _).
    exists h, hn'. rewrite Hhd, Hv. by split_and!.
  - intros ([v ok] & s1 & [Hheap Hd]%Dequeue_Done & Hrun)%bind_Done.
    apply bind_Done in Hrun as (rs & s2 & Hrun & [= <- <-]).
    destruct ok.
    + destruct Hd as (b & nb & Hb & Hnb & Hv).
      assert (head_holds d s1 (Some v)) as HH1.
      { exists b, nb. by rewrite Hheap. }
      pose proof (IH _ _ _ HH1 Hrun) as HH2.
      change (successes ((v, true) :: rs)) with (v :: successes rs).
      rewrite last_cons. by destruct (last (successes rs)).
    + destruct Hd as [_ Hhd].
      change (successes ((v, false) :: rs)) with (successes rs).
      eapply IH; [|exact Hrun].
      destruct HH as (h & hn & Hh & Hn & Ho).
      exists h, hn. by rewrite Hhd, Hheap.
Qed.

(** X12. In every store a single caller reaches from a fresh queue, [head]
    points to a node that is the dummy of [New] if no [Dequeue] has
    succeeded yet, and that otherwise holds the value the last successful
    [Dequeue] returned.  A [Dequeue] that succeeds there returns the value
    of the successor of that node, a different node, and moves [head] to
    it.  The value in the node [head] points to is never returned: with any
    other value in that slot, every later program returns the same
    results. *)
Theorem single_caller_head_value_unused hp fuel ops :
  exists outs s h hn,
    run (S fuel) ops (New hp) = Done (outs, s) /\
    head (queue s) = Some h /\ heap s !! h = Some hn /\
    match last (successes outs) with
    | None => head (queue s) = head (queue (New hp)) /\ value hn = zero
    | Some v => value hn = v
    end /\
    (forall v s', Dequeue (S fuel) s = Done ((v, true), s') ->
       exists b nb, next hn = Some b /\ b <> h /\ heap s !! b = Some nb /\
                    value nb = v /\ head (queue s') = Some b) /\
    (forall x ops', exists outs' s1 s2,
        run (S fuel) ops' s = Done (outs', s1) /\
        run (S fuel) ops' (set_value h x s) = Done (outs', s2)).
Proof.
  destruct (run_refines_fifo fuel ops _ _ (quiescent_New hp)) as (s & Hrun & Q).
  assert (head_holds (head (queue (New hp))) (New hp) None) as HH0.
  { exists (length hp), (Node zero None). split_and!; try done.
    unfold New. cbn [heap]. by rewrite lookup_app_r, Nat.sub_diag. }
  destruct (run_head_holds _ _ _ _ _ _ _ HH0 Hrun) as (h & hn & Hh & Hn & Hlast).
  eexists _, s, h, hn. split_and!; [exact Hrun|done|done| | |].
  - by destruct (last (successes (fifo_run ops []).1)).
  - intros v s' Hd. destruct Q as (ch & i & C & _).
    pose proof (chain_head_lt _ _ _ _ C) as Hi.
    pose proof (chain_head _ _ _ _ C) as Hhd. rewrite Hh in Hhd.
    destruct (decide (S i = length ch)) as [Hl|Hl].
    { rewrite Dequeue_is_empty in Hd by (by eapply chain_is_empty). done. }
    destruct (lookup_lt_is_Some_2 ch (S i)) as [b Hb]; [lia|].
    destruct (Dequeue_chain fuel s ch i _ b C Hb) as (_ & Hrun' & _).
    rewrite Hrun' in Hd by lia. injection Hd as <- <-.
    destruct (chain_link _ _ _ _ C i h (eq_sym Hhd)) as (hn' & Hn' & Hnx).
    destruct (chain_link _ _ _ _ C (S i) b Hb) as (nb & Hnb & _).
    simplify_eq. exists b, nb. split_and!; try done.
    + by rewrite Hnx.
    + intros ->. pose proof (chain_inj _ _ _ _ _ _ _ C Hb (eq_sym Hhd)). lia.
    + unfold val_at. by rewrite Hnb.
  - intros x ops'.
    destruct (run_refines_fifo fuel ops' s _ Q) as (s1 & Hrun1 & _).
    destruct (run_refines_fifo fuel ops' _ _ (quiescent_set_value _ _ h x Q Hh))
      as (s2 & Hrun2 & _).
    eauto.
Qed.

End Queue.

(** * Concurrent callers

    The code again, as trees of atomic actions, so that calls of several
    threads can be interleaved one action at a time.  An action is a [load],
    a [cas], an allocation or the read of a value slot, performed on the
    store by the functions above; [exec] runs a tree without interruption,
    and the trees of [Enqueue] and [Dequeue] run that way are the functions
    [Enqueue] and [Dequeue] above.  The operations of [sync/atomic] are
    sequentially consistent, so an execution of the threads is an
    interleaving of their actions; an allocation gives an address that was
    never used, as the collector frees no node a thread can still reach. *)

Section Interleaving.

Context {T : Type} (zero : T).

Inductive prog (R : Type) : Type :=
| Ret (r : R)
| Load (c : cell) (k : option nat -> prog R)
| Cas (c : cell) (old new : option nat) (k : bool -> prog R)
| Alloc (v : T) (k : option nat -> prog R)
| ReadValue (p : option nat) (k : T -> prog R)
| Spin.   (* the loop is out of fuel *)

Arguments Ret {R} r.
Arguments Load {R} c k.
Arguments Cas {R} c old new k.
Arguments Alloc {R} v k.
Arguments ReadValue {R} p k.
Arguments Spin {R}.

Fixpoint pbind {A B} (p : prog A) (g : A -> prog B) : prog B :=
  match p with
  | Ret a => g a
  | Load c k => Load c (fun x => pbind (k x) g)
  | Cas c old new k => Cas c old new (fun b => pbind (k b) g)
  | Alloc v k => Alloc v (fun x => pbind (k x) g)
  | ReadValue p k => ReadValue p (fun v => pbind (k v) g)
  | Spin => Spin
  end.

(** A tree run without interruption. *)
Fixpoint exec {R} (p : prog R) : M R :=
  match p with
  | Ret r => ret r
  | Load c k => bind (load c) (fun x => exec (k x))
  | Cas c old new k => bind (cas c old new) (fun b => exec (k b))
  | Alloc v k => bind (alloc v) (fun x => exec (k x))
  | ReadValue p k => bind (read_value p) (fun v => exec (k v))
  | Spin => out_of_fuel
  end.

(** What an iteration of the loop of [Enqueue] does once it has loaded
    [tail], [tail.next] and [tail] again; [again] is the next iteration. *)
Definition Enqueue_branch (again : prog unit)
    (node tail next tail' : option nat) : prog unit :=
  if decide (tail = tail') then
    if decide (next = None) then
      Cas (NextCell tail) next node (fun linked =>
        if linked : bool then Cas TailCell tail node (fun _ => Ret tt)
        else again)
    else Cas TailCell tail next (fun _ => again)
  else again.

Fixpoint Enqueue_loop_prog (fuel : nat) (node : option nat) : prog unit :=
  match fuel with
  | 0 => Spin
  | S fuel =>
      Load TailCell (fun tail =>
      Load (NextCell tail) (fun next =>
      Load TailCell (fun tail' =>
      Enqueue_branch (Enqueue_loop_prog fuel node) node tail next tail')))
  end.

Definition Enqueue_prog (fuel : nat) (v : T) : prog unit :=
  Alloc v (fun node => Enqueue_loop_prog fuel node).

(** What an iteration of the loop of [Dequeue] does once it has loaded
    [head], [tail], [head.next] and [head] again. *)
Definition Dequeue_branch (again : prog (T * bool))
    (head tail next head' : option nat) : prog (T * bool) :=
  if decide (head = head') then
    if decide (head = tail) then
      if decide (next = None) then Ret (zero, false)
      else Cas TailCell tail next (fun _ => again)
    else
      ReadValue next (fun v =>
      Cas HeadCell head next (fun swung =>
        if swung : bool then Ret (v, true) else again))
  else again.

Fixpoint Dequeue_prog (fuel : nat) : prog (T * bool) :=
  match fuel with
  | 0 => Spin
  | S fuel =>
      Load HeadCell (fun head =>
      Load TailCell (fun tail =>
      Load (NextCell head) (fun next =>
      Load HeadCell (fun head' =>
      Dequeue_branch (Dequeue_prog fuel) head tail next head'))))
  end.

(** ** Threads, events and interleavings *)

(** What a call returns: nothing for [Enqueue], the pair for [Dequeue]. *)
Definition resp : Type := option (T * bool).

Definition call_prog (fuel : nat) (o : op) : prog resp :=
  match o with
  | Enq v => pbind (Enqueue_prog fuel v) (fun _ => Ret None)
  | Deq => pbind (Dequeue_prog fuel) (fun r => Ret (Some r))
  end.

(** A thread is between two calls, with the calls it has still to make, or
    inside a call, with what is left of the call. *)
Inductive thread : Type :=
| Idle (todo : list (@op T))
| Running (o : @op T) (p : prog resp) (todo : list (@op T)).

(** The events of a history: thread [t] calls, thread [t] returns. *)
Inductive event : Type :=
| EInv (t : nat) (o : @op T)
| ERes (t : nat) (o : @op T) (r : resp).

Record config : Type := Config {
  mem : @store T;
  threads : list thread;
  hist : list event;
  crashed : bool
}.

(** The first action of a tree, performed on the store. *)
Definition act (p : prog resp) : M (prog resp) :=
  match p with
  | Load c k => bind (load c) (fun x => ret (k x))
  | Cas c old new k => bind (cas c old new) (fun b => ret (k b))
  | Alloc v k => bind (alloc v) (fun x => ret (k x))
  | ReadValue q k => bind (read_value q) (fun v => ret (k v))
  | Ret _ | Spin => ret p
  end.

(** One step of thread [t]: it makes its next call, or performs the next
    atomic action of its call, or returns from it.  A panic stops the
    program; a thread whose loop is out of fuel, or that has no call left,
    does nothing. *)
Definition step (fuel : nat) (t : nat) (c : config) : config :=
  if crashed c then c else
  match threads c !! t with
  | None | Some (Idle []) | Some (Running _ Spin _) => c
  | Some (Idle (o :: todo)) =>
      Config (mem c) (<[t := Running o (call_prog fuel o) todo]> (threads c))
             (hist c ++ [EInv t o]) false
  | Some (Running o (Ret r) todo) =>
      Config (mem c) (<[t := Idle todo]> (threads c))
             (hist c ++ [ERes t o r]) false
  | Some (Running o p todo) =>
      match act p (mem c) with
      | Done (p', s') =>
          Config s' (<[t := Running o p' todo]> (threads c)) (hist c) false
      | _ => Config (mem c) (threads c) (hist c) true
      end
  end.

(** A schedule is the list of the threads that step, in order. *)
Definition interleave (fuel : nat) (sc : list nat) (c : config) : config :=
  foldl (fun c t => step fuel t c) c sc.

(** The threads with their programs of calls, on a fresh queue. *)
Definition init (hp : list (@node T)) (progs : list (list (@op T))) : config :=
  Config (New zero hp) (map Idle progs) [] false.

(** ** The trees are the code *)

Lemma bind_ext {A B} (m : @M T A) (k1 k2 : A -> @M T B) s :
  (forall a s', k1 a s' = k2 a s') -> bind m k1 s = bind m k2 s.
Proof. intros H. unfold bind. destruct (m s) as [[a s']| |]; [apply H|done..]. Qed.

Lemma bind_assoc {A B C} (m : @M T A) (k : A -> @M T B) (g : B -> @M T C) s :
  bind (bind m k) g s = bind m (fun a => bind (k a) g) s.
Proof. unfold bind. by destruct (m s) as [[a s']| |]. Qed.

Lemma exec_pbind {A B} (p : prog A) (g : A -> prog B) s :
  exec (pbind p g) s = bind (exec p) (fun a => exec (g a)) s.
Proof.
  revert s. induction p as [a|c k IH|c old new k IH|v k IH|q k IH|]; intros s;
    cbn [pbind exec]; try done;
    rewrite bind_assoc; apply bind_ext; intros x s'; apply IH.
Qed.

Lemma exec_Enqueue_loop fuel node s :
  exec (Enqueue_loop_prog fuel node) s = Enqueue_loop fuel node s.
Proof.
  revert s. induction fuel as [|fuel IH]; intros s; [done|].
  cbn [Enqueue_loop_prog Enqueue_loop exec].
  apply bind_ext. intros tail s1. apply bind_ext. intros next s2.
  apply bind_ext. intros tail' s3. unfold Enqueue_branch.
  destruct (decide (tail = tail')); [|apply IH].
  destruct (decide (next = None)); cbn [exec].
  - apply bind_ext. intros [] s4; [done|apply IH].
  - apply bind_ext. intros _ s4. apply IH.
Qed.

Lemma exec_Dequeue fuel s :
  exec (Dequeue_prog fuel) s = Dequeue zero fuel s.
Proof.
  revert s. induction fuel as [|fuel IH]; intros s; [done|].
  cbn [Dequeue_prog Dequeue exec].
  apply bind_ext. intros head s1. apply bind_ext. intros tail s2.
  apply bind_ext. intros next s3. apply bind_ext. intros head' s4.
  unfold Dequeue_branch.
  destruct (decide (head = head')); [|apply IH].
  destruct (decide (head = tail)).
  - destruct (decide (next = None)); cbn [exec]; [done|].
    apply bind_ext. intros _ s5. apply IH.
  - cbn [exec]. apply bind_ext. intros v s5. apply bind_ext.
    intros [] s6; [done|apply IH].
Qed.

Lemma exec_Enqueue fuel v s :
  exec (Enqueue_prog fuel v) s = Enqueue fuel v s.
Proof.
  unfold Enqueue_prog, Enqueue. cbn [exec]. apply bind_ext.
  intros node s1. apply exec_Enqueue_loop.
Qed.


(** ** What a step may store *)

(** In a tree that is [safe], a compare-and-swap of a [next] field only
    ever replaces [nil]. *)
Fixpoint safe {R} (p : prog R) : Prop :=
  match p with
  | Ret _ | Spin => True
  | Load _ k => forall x, safe (k x)
  | Cas c old _ k =>
      match c with NextCell _ => old = None | _ => True end /\
      forall b, safe (k b)
  | Alloc _ k => forall x, safe (k x)
  | ReadValue _ k => forall v, safe (k v)
  end.

Definition safe_thread (th : thread) : Prop :=
  match th with
  | Idle _ => True
  | Running _ p _ => safe p
  end.

Lemma safe_pbind {A B} (p : prog A) (g : A -> prog B) :
  safe p -> (forall a, safe (g a)) -> safe (pbind p g).
Proof.
  intros Hp Hg. induction p as [a|c k IH|c old new k IH|v k IH|q k IH|];
    cbn [pbind safe] in *; try done; try (intros x; by apply IH).
  destruct Hp as [Hc Hk]. split; [done|]. intros b. by apply IH.
Qed.

Lemma safe_Enqueue_loop fuel node : safe (Enqueue_loop_prog fuel node).
Proof.
  induction fuel as [|fuel IH]; [done|].
  cbn [Enqueue_loop_prog safe]. intros tail next tail'. unfold Enqueue_branch.
  destruct (decide (tail = tail')); [|done].
  destruct (decide (next = None)) as [->|]; cbn [safe]; [|done].
  split; [done|]. by intros [].
Qed.

Lemma safe_Dequeue fuel : safe (Dequeue_prog fuel).
Proof.
  induction fuel as [|fuel IH]; [done|].
  cbn [Dequeue_prog safe]. intros head tail next head'. unfold Dequeue_branch.
  destruct (decide (head = head')); [|done].
  destruct (decide (head = tail)).
  - by destruct (decide (next = None)).
  - cbn [safe]. intros v. split; [done|]. by intros [].
Qed.

Lemma safe_call_prog fuel o : safe (call_prog fuel o).
Proof.
  destruct o as [v|]; cbn [call_prog]; apply safe_pbind; try done.
  - intros node. apply safe_Enqueue_loop.
  - apply safe_Dequeue.
Qed.

(** The stores an action may make: none, a new node, or the first store to
    a [next] field that was [nil]. *)
Definition heap_step (hp hp' : list (@node T)) : Prop :=
  hp' = hp \/
  (exists v, hp' = hp ++ [Node v None]) \/
  (exists a n new, hp !! a = Some n /\ next n = None /\
                   hp' = <[a := Node (value n) new]> hp).

Lemma heap_step_stable s s' : heap_step (heap s) (heap s') -> stable s s'.
Proof.
  intros [Heq|[[v Heq]|(a & n & new & Hn & Hnx & Heq)]]; intros b nb Hb;
    rewrite Heq.
  - eauto.
  - exists nb. split; [by apply lookup_app_l_Some|done].
  - destruct (decide (a = b)) as [->|Hne].
    + rewrite list_lookup_insert_eq by (by eapply lookup_lt_Some).
      assert (nb = n) as -> by congruence.
      eexists. split_and!; [done..|]. intros m Hm. congruence.
    + rewrite list_lookup_insert_ne by done. eauto.
Qed.

Lemma act_safe p s p' s' :
  safe p -> act p s = Done (p', s') ->
  safe p' /\ heap_step (heap s) (heap s').
Proof.
  destruct p as [r|c k|c old new k|v k|q k|]; cbn [act safe].
  - intros _ [= <- <-]. split; [done|by left].
  - intros Hk (x & s1 & ->%load_Done & [= <- <-])%bind_Done.
    split; [done|by left].
  - intros [Hc Hk] (b & s1 & Hcas & [= <- <-])%bind_Done. split; [done|].
    destruct c as [| |q].
    + apply cas_head_Done in Hcas as [-> _]. by left.
    + apply cas_tail_Done in Hcas as [-> _]. by left.
    + subst old. apply cas_next_nil_Done in Hcas as (_ & _ & _ & Hb).
      destruct b; [|subst; by left].
      destruct Hb as (a & n & _ & Hn & Hnx & ->). right. right. by exists a, n, new.
  - intros Hk (x & s1 & (_ & _ & Hh & _)%alloc_Done & [= <- <-])%bind_Done.
    split; [done|]. right. left. by exists v.
  - intros Hk (v & s1 & [-> _]%read_value_Done & [= <- <-])%bind_Done.
    split; [done|by left].
  - intros _ [= <- <-]. split; [done|by left].
Qed.

Lemma step_safe fuel t c :
  Forall safe_thread (threads c) ->
  Forall safe_thread (threads (step fuel t c)) /\
  heap_step (heap (mem c)) (heap (mem (step fuel t c))).
Proof.
  intros Hs. unfold step. destruct (crashed c); [split; [done|by left]|].
  destruct (threads c !! t) as [[[|o todo]|o p todo]|] eqn:Ht;
    try (split; [done|by left]).
  - cbn [threads mem]. split; [|by left].
    apply Forall_insert; [done|]. apply safe_call_prog.
  - pose proof (Forall_lookup_1 _ _ _ _ Hs Ht) as Hp. cbn [safe_thread] in Hp.
    destruct p as [r|c' k|c' old new k|v k|q k|]; try (split; [done|by left]).
    + cbn [threads mem]. split; [|by left]. by apply Forall_insert.
    + destruct (act (Load c' k) (mem c)) as [[p' s']| |] eqn:Hact;
        cbn [threads mem]; try (split; [done|by left]).
      destruct (act_safe _ _ _ _ Hp Hact). split; [|done]. by apply Forall_insert.
    + destruct (act (Cas c' old new k) (mem c)) as [[p' s']| |] eqn:Hact;
        cbn [threads mem]; try (split; [done|by left]).
      destruct (act_safe _ _ _ _ Hp Hact). split; [|done]. by apply Forall_insert.
    + destruct (act (Alloc v k) (mem c)) as [[p' s']| |] eqn:Hact;
        cbn [threads mem]; try (split; [done|by left]).
      destruct (act_safe _ _ _ _ Hp Hact). split; [|done]. by apply Forall_insert.
    + destruct (act (ReadValue q k) (mem c)) as [[p' s']| |] eqn:Hact;
        cbn [threads mem]; try (split; [done|by left]).
      destruct (act_safe _ _ _ _ Hp Hact). split; [|done]. by apply Forall_insert.
Qed.

Lemma interleave_snoc fuel sc t c :
  interleave fuel (sc ++ [t]) c = step fuel t (interleave fuel sc c).
Proof. unfold interleave. by rewrite foldl_app. Qed.

Lemma interleave_app fuel sc sc' c :
  interleave fuel (sc ++ sc') c = interleave fuel sc' (interleave fuel sc c).
Proof. unfold interleave. by rewrite foldl_app. Qed.

Lemma interleave_safe fuel sc c :
  Forall safe_thread (threads c) ->
  Forall safe_thread (threads (interleave fuel sc c)) /\
  stable (mem c) (mem (interleave fuel sc c)).
Proof.
  intros Hs. induction sc as [|t sc IH] using rev_ind.
  - split; [done|apply stable_refl].
  - rewrite interleave_snoc. destruct IH as [Hs' Hst].
    destruct (step_safe fuel t _ Hs') as [Hs'' Hh]. split; [done|].
    eapply stable_trans; [exact Hst|by apply heap_step_stable].
Qed.

Lemma init_safe hp progs : Forall safe_thread (threads (init hp progs)).
Proof. cbn [init threads]. apply Forall_forall. by intros th (ops & -> & _)%list_elem_of_fmap. Qed.


(** ** The points of the code

    The state of a thread inside a call: where it is in the loop, with the
    pointers it has loaded and the iterations it has left. *)

Inductive point : Type :=
(* [Enqueue] *)
| PEnq (f : nat) (v : T)                            (* about to allocate *)
| PELoop (f : nat) (node : option nat)              (* at the top of the loop *)
| PENext (f : nat) (node tail : option nat)         (* has loaded tail *)
| PEReload (f : nat) (node tail next : option nat)  (* has loaded tail.next *)
| PELink (f : nat) (node tail : option nat)         (* about to cas tail.next *)
| PESwing (node tail : option nat)                  (* linked, about to cas tail *)
| PEHelp (f : nat) (node tail next : option nat)    (* about to help tail on *)
| PERet                                             (* about to return *)
(* [Dequeue] *)
| PDLoop (f : nat)                                  (* at the top of the loop *)
| PDTail (f : nat) (head : option nat)              (* has loaded head *)
| PDNext (f : nat) (head tail : option nat)         (* has loaded tail *)
| PDReload (f : nat) (head tail next : option nat)  (* has loaded head.next *)
| PDHelp (f : nat) (tail next : option nat)         (* about to help tail on *)
| PDRead (f : nat) (head next : option nat)         (* about to read next.value *)
| PDCas (f : nat) (head next : option nat) (v : T)  (* about to cas head *)
| PDRet (r : T * bool).                             (* about to return [r] *)

Definition ret_enq : unit -> prog resp := fun _ => Ret None.
Definition ret_deq : T * bool -> prog resp := fun r => Ret (Some r).

(** What is left of the call at a point. *)
Definition prog_of (pt : point) : prog resp :=
  match pt with
  | PEnq f v => pbind (Enqueue_prog f v) ret_enq
  | PELoop f node => pbind (Enqueue_loop_prog f node) ret_enq
  | PENext f node tail =>
      pbind (Load (NextCell tail) (fun next =>
             Load TailCell (fun tail' =>
             Enqueue_branch (Enqueue_loop_prog f node) node tail next tail')))
            ret_enq
  | PEReload f node tail next =>
      pbind (Load TailCell (fun tail' =>
             Enqueue_branch (Enqueue_loop_prog f node) node tail next tail'))
            ret_enq
  | PELink f node tail =>
      pbind (Cas (NextCell tail) None node (fun linked =>
               if linked : bool then Cas TailCell tail node (fun _ => Ret tt)
               else Enqueue_loop_prog f node))
            ret_enq
  | PESwing node tail => pbind (Cas TailCell tail node (fun _ => Ret tt)) ret_enq
  | PEHelp f node tail next =>
      pbind (Cas TailCell tail next (fun _ => Enqueue_loop_prog f node)) ret_enq
  | PERet => Ret None
  | PDLoop f => pbind (Dequeue_prog f) ret_deq
  | PDTail f head =>
      pbind (Load TailCell (fun tail =>
             Load (NextCell head) (fun next =>
             Load HeadCell (fun head' =>
             Dequeue_branch (Dequeue_prog f) head tail next head'))))
            ret_deq
  | PDNext f head tail =>
      pbind (Load (NextCell head) (fun next =>
             Load HeadCell (fun head' =>
             Dequeue_branch (Dequeue_prog f) head tail next head')))
            ret_deq
  | PDReload f head tail next =>
      pbind (Load HeadCell (fun head' =>
             Dequeue_branch (Dequeue_prog f) head tail next head'))
            ret_deq
  | PDHelp f tail next =>
      pbind (Cas TailCell tail next (fun _ => Dequeue_prog f)) ret_deq
  | PDRead f head next =>
      pbind (ReadValue next (fun v =>
             Cas HeadCell head next (fun swung =>
               if swung : bool then Ret (v, true) else Dequeue_prog f)))
            ret_deq
  | PDCas f head next v =>
      pbind (Cas HeadCell head next (fun swung =>
               if swung : bool then Ret (v, true) else Dequeue_prog f))
            ret_deq
  | PDRet r => Ret (Some r)
  end.

(** The point after the atomic action at a point. *)
Definition pact (pt : point) : M point :=
  match pt with
  | PEnq f v => bind (alloc v) (fun node => ret (PELoop f node))
  | PELoop (S f) node => bind (load TailCell) (fun tail => ret (PENext f node tail))
  | PENext f node tail =>
      bind (load (NextCell tail)) (fun next => ret (PEReload f node tail next))
  | PEReload f node tail next =>
      bind (load TailCell) (fun tail' =>
        ret (if decide (tail = tail') then
               if decide (next = None) then PELink f node tail
               else PEHelp f node tail next
             else PELoop f node))
  | PELink f node tail =>
      bind (cas (NextCell tail) None node) (fun linked =>
        ret (if linked : bool then PESwing node tail else PELoop f node))
  | PESwing node tail => bind (cas TailCell tail node) (fun _ => ret PERet)
  | PEHelp f node tail next =>
      bind (cas TailCell tail next) (fun _ => ret (PELoop f node))
  | PDLoop (S f) => bind (load HeadCell) (fun head => ret (PDTail f head))
  | PDTail f head => bind (load TailCell) (fun tail => ret (PDNext f head tail))
  | PDNext f head tail =>
      bind (load (NextCell head)) (fun next => ret (PDReload f head tail next))
  | PDReload f head tail next =>
      bind (load HeadCell) (fun head' =>
        ret (if decide (head = head') then
               if decide (head = tail) then
                 if decide (next = None) then PDRet (zero, false)
                 else PDHelp f tail next
               else PDRead f head next
             else PDLoop f))
  | PDHelp f tail next => bind (cas TailCell tail next) (fun _ => ret (PDLoop f))
  | PDRead f head next =>
      bind (read_value next) (fun v => ret (PDCas f head next v))
  | PDCas f head next v =>
      bind (cas HeadCell head next) (fun swung =>
        ret (if swung : bool then PDRet (v, true) else PDLoop f))
  | PELoop 0 _ | PDLoop 0 | PERet | PDRet _ => ret pt
  end.

(** A point is at rest when the thread has no action to perform there: it
    is about to return, or its loop is out of fuel. *)
Definition returns (pt : point) : option resp :=
  match pt with
  | PERet => Some None
  | PDRet r => Some (Some r)
  | _ => None
  end.

Definition spins (pt : point) : bool :=
  match pt with
  | PELoop 0 _ | PDLoop 0 => true
  | _ => false
  end.

Lemma prog_of_returns pt r : returns pt = Some r -> prog_of pt = Ret r.
Proof. destruct pt; try done; by intros [= <-]. Qed.

Lemma prog_of_spins pt : spins pt = true -> prog_of pt = Spin.
Proof. by destruct pt as [| [] | | | | | | | [] | | | | | | |]. Qed.

(** The action of the tree at a point is the action of the point. *)
Lemma act_prog_of pt s :
  returns pt = None -> spins pt = false ->
  act (prog_of pt) s =
  match pact pt s with
  | Done (pt', s') => Done (prog_of pt', s')
  | Panic => Panic
  | OutOfFuel => OutOfFuel
  end.
Proof.
  intros Hr Hs.
  destruct pt as [f v|[|f] node|f node tail|f node tail next|f node tail
                 |node tail|f node tail next| |[|f]|f head|f head tail
                 |f head tail next|f tail next|f head next|f head next v|r];
    try done; cbn [prog_of pact pbind Enqueue_prog Enqueue_loop_prog
                   Dequeue_prog act]; unfold bind, ret;
    repeat case_match; simplify_eq; try done;
    unfold Enqueue_branch, Dequeue_branch;
    repeat case_match; simplify_eq; done.
Qed.

Lemma call_prog_point fuel o :
  call_prog fuel o = prog_of (match o with Enq v => PEnq fuel v | Deq => PDLoop fuel end).
Proof. by destruct o. Qed.

(** Threads with their points. *)
Inductive pthread : Type :=
| PIdle (todo : list (@op T))
| PRunning (o : @op T) (pt : point) (todo : list (@op T)).

Definition erase (pth : pthread) : thread :=
  match pth with
  | PIdle todo => Idle todo
  | PRunning o pt todo => Running o (prog_of pt) todo
  end.

Definition start (fuel : nat) (o : @op T) : point :=
  match o with Enq v => PEnq fuel v | Deq => PDLoop fuel end.

(** A step of a thread, by its point. *)
Inductive pstep (fuel t : nat) (pts : list pthread) (c : config) :
    list pthread -> config -> Prop :=
| pstep_none :
    (pts !! t = None \/ pts !! t = Some (PIdle []) \/
     exists o pt todo, pts !! t = Some (PRunning o pt todo) /\ spins pt = true) ->
    pstep fuel t pts c pts c
| pstep_call o todo :
    pts !! t = Some (PIdle (o :: todo)) ->
    pstep fuel t pts c
      (<[t := PRunning o (start fuel o) todo]> pts)
      (Config (mem c) (<[t := Running o (call_prog fuel o) todo]> (threads c))
              (hist c ++ [EInv t o]) false)
| pstep_return o pt todo r :
    pts !! t = Some (PRunning o pt todo) -> returns pt = Some r ->
    pstep fuel t pts c
      (<[t := PIdle todo]> pts)
      (Config (mem c) (<[t := Idle todo]> (threads c))
              (hist c ++ [ERes t o r]) false)
| pstep_act o pt todo pt' s' :
    pts !! t = Some (PRunning o pt todo) ->
    returns pt = None -> spins pt = false ->
    pact pt (mem c) = Done (pt', s') ->
    pstep fuel t pts c
      (<[t := PRunning o pt' todo]> pts)
      (Config s' (<[t := Running o (prog_of pt') todo]> (threads c))
              (hist c) false)
| pstep_panic o pt todo :
    pts !! t = Some (PRunning o pt todo) ->
    returns pt = None -> spins pt = false ->
    pact pt (mem c) = Panic ->
    pstep fuel t pts c pts (Config (mem c) (threads c) (hist c) true).

Lemma pact_not_OutOfFuel pt s : pact pt s <> OutOfFuel.
Proof.
  destruct pt as [f v|[|f] node|f node tail|f node tail next|f node tail
                 |node tail|f node tail next| |[|f]|f head|f head tail
                 |f head tail next|f tail next|f head next|f head next v|r];
    cbn [pact load cas]; unfold bind, ret, read_value, bind, deref, alloc;
    repeat case_match; done.
Qed.

(** Every step of the interleaving is a step by points. *)
Lemma step_pstep fuel t pts c :
  threads c = map erase pts -> crashed c = false ->
  exists pts', pstep fuel t pts c pts' (step fuel t c) /\
               threads (step fuel t c) = map erase pts'.
Proof.
  intros Hth Hcr. unfold step. rewrite Hcr, Hth, list_lookup_fmap.
  destruct (pts !! t) as [[[|o todo]|o pt todo]|] eqn:Ht; cbn [fmap option_fmap option_map erase].
  - exists pts. split; [|done]. constructor. eauto.
  - exists (<[t := PRunning o (start fuel o) todo]> pts). split.
    + rewrite <- Hth. by apply pstep_call.
    + cbn [threads]. rewrite list_fmap_insert. cbn [erase].
      by rewrite call_prog_point.
  - destruct (returns pt) as [r|] eqn:Hr.
    { rewrite (prog_of_returns _ _ Hr).
      exists (<[t := PIdle todo]> pts). split.
      - rewrite <- Hth. by eapply pstep_return.
      - cbn [threads]. by rewrite list_fmap_insert. }
    destruct (spins pt) eqn:Hs.
    { rewrite (prog_of_spins _ Hs). exists pts. split; [|done].
      constructor. right. right. by exists o, pt, todo. }
    assert (match prog_of pt with
            | Ret _ | Spin => False
            | _ => True
            end) as Hhead.
    { destruct pt as [f v|[|f] node|f node tail|f node tail next|f node tail
                     |node tail|f node tail next| |[|f]|f head|f head tail
                     |f head tail next|f tail next|f head next|f head next v|r];
        try done. }
    pose proof (act_prog_of pt (mem c) Hr Hs) as Hact.
    pose proof (pact_not_OutOfFuel pt (mem c)) as Hnof.
    destruct (pact pt (mem c)) as [[pt' s']| |] eqn:Hp; [| |done].
    + exists (<[t := PRunning o pt' todo]> pts). split.
      * destruct (prog_of pt); try done; rewrite Hact, <- Hth;
          by eapply pstep_act.
      * destruct (prog_of pt); try done; rewrite Hact; cbn [threads];
          by rewrite list_fmap_insert.
    + exists pts. split.
      * destruct (prog_of pt); try done; rewrite Hact, <- Hth;
          by eapply pstep_panic.
      * by destruct (prog_of pt); try done; rewrite Hact.
  - exists pts. split; [|done]. constructor. eauto.
Qed.


(** ** The shape of the queue under interleaving *)

(** The pointer [q] is the node at position [p] of the list. *)
Definition at_pos (ch : list nat) (q : option nat) (p : nat) : Prop :=
  exists a, q = Some a /\ ch !! p = Some a.

(** The node a thread has allocated and not linked yet. *)
Definition unlinked (s : @store T) (ch : list nat) (v : T)
    (node : option nat) : Prop :=
  exists n, node = Some n /\ (n ∉ ch) /\ heap s !! n = Some (Node v None).

(** What a thread knows at a point of a call of [o], for the list [ch]
    with [head] at position [i] and [tail] at position [j]. *)
Definition pt_ok (s : @store T) (ch : list nat) (i j : nat)
    (o : @op T) (pt : point) : Prop :=
  match o, pt with
  | Enq v, PEnq f v' => v' = v
  | Enq v, PELoop f node => unlinked s ch v node
  | Enq v, PENext f node tail =>
      unlinked s ch v node /\ exists p, at_pos ch tail p
  | Enq v, PEReload f node tail next =>
      unlinked s ch v node /\
      exists p, at_pos ch tail p /\ (next = None \/ at_pos ch next (S p))
  | Enq v, PELink f node tail =>
      unlinked s ch v node /\ exists p, at_pos ch tail p
  | Enq v, PESwing node tail =>
      exists p, at_pos ch tail p /\ at_pos ch node (S p)
  | Enq v, PEHelp f node tail next =>
      unlinked s ch v node /\
      exists p, at_pos ch tail p /\ at_pos ch next (S p)
  | Enq v, PERet => True
  | Deq, PDLoop f => True
  | Deq, PDTail f head => exists ph, at_pos ch head ph /\ ph <= i
  | Deq, PDNext f head tail =>
      exists ph pt, at_pos ch head ph /\ at_pos ch tail pt /\
                    ph <= i /\ ph <= pt /\ pt <= j
  | Deq, PDReload f head tail next =>
      exists ph pt, at_pos ch head ph /\ at_pos ch tail pt /\
                    ph <= i /\ ph <= pt /\ pt <= j /\
                    (next = None /\ pt = ph \/ at_pos ch next (S ph))
  | Deq, PDHelp f tail next =>
      exists p, at_pos ch tail p /\ at_pos ch next (S p)
  | Deq, PDRead f head next =>
      exists ph, at_pos ch head ph /\ at_pos ch next (S ph) /\ S ph <= j
  | Deq, PDCas f head next v =>
      exists ph b, at_pos ch head ph /\ next = Some b /\
                   ch !! S ph = Some b /\ S ph <= j /\
                   v = val_at zero (heap s) b
  | Deq, PDRet r => True
  | _, _ => False
  end.

(** The node a thread holds unlinked at a point. *)
Definition holds (pt : point) : option nat :=
  match pt with
  | PELoop _ node | PENext _ node _ | PEReload _ node _ _
  | PELink _ node _ | PEHelp _ node _ _ => node
  | _ => None
  end.

Definition holder (pts : list pthread) (t n : nat) : Prop :=
  exists o pt todo, pts !! t = Some (PRunning o pt todo) /\ holds pt = Some n.

(** The values the [Dequeue] calls have taken: those returned, and those
    of the calls that are about to return one. *)
Definition taken_event (e : event) : option T :=
  match e with
  | ERes _ _ (Some (v, true)) => Some v
  | _ => None
  end.

Definition taken_thread (th : thread) : option T :=
  match th with
  | Running _ (Ret (Some (v, true))) _ => Some v
  | _ => None
  end.

Definition taken (c : config) : list T :=
  omap taken_event (hist c) ++ omap taken_thread (threads c).

(** The values of the nodes [head] has moved onto. *)
Definition consumed (s : @store T) (ch : list nat) (i : nat) : list T :=
  map (val_at zero (heap s)) (take i (drop 1 ch)).

Record sinv (c : config) (pts : list pthread) (ch : list nat) (i j : nat)
    : Prop := Sinv {
  sinv_threads : threads c = map erase pts;
  sinv_alive : crashed c = false;
  sinv_chain : chain (mem c) ch i j;
  sinv_pts : forall t o pt todo,
      pts !! t = Some (PRunning o pt todo) -> pt_ok (mem c) ch i j o pt;
  sinv_distinct : forall t1 t2 n,
      holder pts t1 n -> holder pts t2 n -> t1 = t2;
  sinv_taken : taken c ≡ₚ consumed (mem c) ch i
}.

(** How the store and the list may change under a thread that is not
    looking: the list is extended, [head] and [tail] move forward, the
    nodes of the list keep their values and the nodes outside it are not
    touched. *)
Record grows (s : @store T) (ch : list nat) (i j : nat)
    (s' : @store T) (ch' : list nat) (i' j' : nat) : Prop := Grows {
  grows_prefix : ch `prefix_of` ch';
  grows_head : i <= i';
  grows_tail : j <= j';
  grows_val : forall a, a ∈ ch -> val_at zero (heap s') a = val_at zero (heap s) a;
  grows_out : forall n x, n ∉ ch' -> heap s !! n = Some x -> heap s' !! n = Some x
}.

Lemma at_pos_prefix ch ch' q p :
  ch `prefix_of` ch' -> at_pos ch q p -> at_pos ch' q p.
Proof.
  intros Hp (a & -> & Ha). exists a. split; [done|].
  by eapply prefix_lookup_Some.
Qed.

Lemma at_pos_lt ch q p : at_pos ch q p -> p < length ch.
Proof. intros (a & _ & Ha). by eapply lookup_lt_Some. Qed.

Lemma at_pos_inj (s : @store T) ch i j q p p' :
  chain s ch i j -> at_pos ch q p -> at_pos ch q p' -> p = p'.
Proof.
  intros C (a & -> & Ha) (a' & [= <-] & Ha'). by eapply chain_inj.
Qed.

Lemma at_pos_lookup ch q p : at_pos ch q p -> ch !! p = q.
Proof. by intros (a & -> & Ha). Qed.

Lemma lookup_at_pos ch q p : ch !! p = q -> p < length ch -> at_pos ch q p.
Proof.
  intros <- Hp. destruct (lookup_lt_is_Some_2 ch p Hp) as [a Ha]. by exists a.
Qed.

Lemma unlinked_grows (s : @store T) ch i j s' ch' i' j' v node :
  grows s ch i j s' ch' i' j' ->
  (forall n, node = Some n -> n ∉ ch') ->
  unlinked s ch v node -> unlinked s' ch' v node.
Proof.
  intros G Hout (n & -> & Hn & Hx). exists n. split_and!; [done|eauto|].
  eapply grows_out; eauto.
Qed.

(** What a thread knows stays true while the others act. *)
Lemma pt_ok_grows (s : @store T) ch i j s' ch' i' j' o pt :
  grows s ch i j s' ch' i' j' ->
  (forall n, holds pt = Some n -> n ∉ ch') ->
  pt_ok s ch i j o pt -> pt_ok s' ch' i' j' o pt.
Proof.
  intros G Hout. pose proof (grows_prefix _ _ _ _ _ _ _ _ G) as Hp.
  pose proof (grows_head _ _ _ _ _ _ _ _ G) as Hi.
  pose proof (grows_tail _ _ _ _ _ _ _ _ G) as Hj.
  destruct o as [v|], pt; cbn [pt_ok holds] in *; try done.
  - by apply (unlinked_grows _ _ _ _ _ _ _ _ _ _ G).
  - intros [Hu (p & Ht)]. split; [by apply (unlinked_grows _ _ _ _ _ _ _ _ _ _ G)|].
    exists p. by eapply at_pos_prefix.
  - intros [Hu (p & Ht & Hn)].
    split; [by apply (unlinked_grows _ _ _ _ _ _ _ _ _ _ G)|].
    exists p. split; [by eapply at_pos_prefix|].
    destruct Hn as [->|Hn]; [by left|right; by eapply at_pos_prefix].
  - intros [Hu (p & Ht)]. split; [by apply (unlinked_grows _ _ _ _ _ _ _ _ _ _ G)|].
    exists p. by eapply at_pos_prefix.
  - intros (p & Ht & Hn). exists p. split; by eapply at_pos_prefix.
  - intros [Hu (p & Ht & Hn)].
    split; [by apply (unlinked_grows _ _ _ _ _ _ _ _ _ _ G)|].
    exists p. split; by eapply at_pos_prefix.
  - intros (ph & Hh & Hle). exists ph. split; [by eapply at_pos_prefix|lia].
  - intros (ph & pt & Hh & Ht & ?). exists ph, pt.
    split_and!; try (by eapply at_pos_prefix); lia.
  - intros (ph & pt & Hh & Ht & ? & ? & ? & Hn). exists ph, pt.
    split_and!; try (by eapply at_pos_prefix); try lia.
    destruct Hn as [Hn|Hn]; [by left|right; by eapply at_pos_prefix].
  - intros (p & Ht & Hn). exists p. split; by eapply at_pos_prefix.
  - intros (ph & Hh & Hn & ?). exists ph.
    split_and!; try (by eapply at_pos_prefix); lia.
  - intros (ph & b & Hh & -> & Hb & ? & ->). exists ph, b.
    split_and!; try done; try (by eapply at_pos_prefix); try lia.
    + by eapply prefix_lookup_Some.
    + symmetry. eapply grows_val; [exact G|]. by eapply list_elem_of_lookup_2.
Qed.

Lemma grows_refl (s : @store T) ch i j : grows s ch i j s ch i j.
Proof. by split. Qed.


Definition taken_point (pt : point) : option T :=
  match pt with
  | PDRet (v, true) => Some v
  | _ => None
  end.

Lemma consumed_grows (s : @store T) ch i j s' ch' i' j' :
  grows s ch i j s' ch' i' j' -> i < length ch ->
  consumed s' ch' i = consumed s ch i.
Proof.
  intros G Hi. destruct (grows_prefix _ _ _ _ _ _ _ _ G) as [k ->].
  unfold consumed. rewrite drop_app_le by lia.
  rewrite take_app_le by (rewrite length_drop; lia).
  apply map_ext_in. intros a Ha%list_elem_of_In.
  eapply grows_val; [exact G|].
  eapply subseteq_drop, subseteq_take, Ha.
Qed.

Lemma consumed_advance (s : @store T) ch i b :
  ch !! S i = Some b ->
  consumed s ch (S i) = consumed s ch i ++ [val_at zero (heap s) b].
Proof.
  intros Hb. unfold consumed.
  rewrite (take_S_r _ _ b) by (by rewrite lookup_drop).
  by rewrite map_app.
Qed.

(** Moving [tail] to the next node keeps the shape. *)
Lemma chain_tail_cas (s : @store T) ch i j tl nx p :
  chain s ch i j -> at_pos ch tl p -> at_pos ch nx (S p) ->
  tail (queue s) = tl ->
  chain (Store (heap s) (Queue (head (queue s)) nx)) ch i (S j) /\ p = j.
Proof.
  intros C Ht Hn Heq.
  assert (p = j) as ->.
  { eapply at_pos_inj; [exact C|exact Ht|].
    apply lookup_at_pos; [|apply C]. rewrite <- Heq. symmetry. apply C. }
  split; [|done]. pose proof (at_pos_lt _ _ _ Hn).
  rewrite <- (at_pos_lookup _ _ _ Hn). by apply chain_swing.
Qed.

Lemma grows_queue (s : @store T) ch i j q i' j' :
  i <= i' -> j <= j' -> grows s ch i j (Store (heap s) q) ch i' j'.
Proof. intros. by split. Qed.

(** Linking a fresh node after the last node, [tail] left where it is. *)
Lemma chain_link_only (s : @store T) ch i j a n new v :
  chain s ch i j ->
  ch !! (length ch - 1) = Some a -> heap s !! a = Some n ->
  new ∉ ch -> heap s !! new = Some (Node v None) ->
  chain (Store (<[a := Node (value n) (Some new)]> (heap s)) (queue s))
        (ch ++ [new]) i j.
Proof.
  intros C Ha Hn Hnew Hv.
  pose proof (chain_link_new s ch i j a n new v C Ha Hn Hnew Hv) as C'.
  pose proof (chain_lt _ _ _ _ C) as Hlt.
  pose proof (chain_le _ _ _ _ C) as Hle.
  split; cbn [queue heap].
  - apply C'.
  - rewrite lookup_app_l by lia. apply C.
  - rewrite lookup_app_l by lia. apply C.
  - done.
  - rewrite length_app. cbn [length]. lia.
  - apply (chain_link _ _ _ _ C').
Qed.

Lemma cas_tail_fail (s : @store T) old new :
  tail (queue s) <> old -> cas TailCell old new s = Done (false, s).
Proof. intros Hne. cbn [cas]. by rewrite decide_False. Qed.

Lemma cas_head_fail (s : @store T) old new :
  head (queue s) <> old -> cas HeadCell old new s = Done (false, s).
Proof. intros Hne. cbn [cas]. by rewrite decide_False. Qed.

Lemma cas_next_fail (s : @store T) a n old new :
  heap s !! a = Some n -> next n <> old ->
  cas (NextCell (Some a)) old new s = Done (false, s).
Proof.
  intros Hn Hne. cbn [cas]. unfold bind, deref. rewrite Hn. cbn [fst snd].
  by rewrite decide_False.
Qed.

Lemma consumed_queue (s : @store T) q ch i :
  consumed (Store (heap s) q) ch i = consumed s ch i.
Proof. done. Qed.

(** What a call has returned, at the points after its effect. *)
Definition lin (pt : point) : option resp :=
  match pt with
  | PESwing _ _ | PERet => Some None
  | PDRet r => Some (Some r)
  | _ => None
  end.

(** A [Dequeue] that has loaded [nil] from [head.next] and has not yet
    loaded [head] again. *)
Definition is_window (pt : point) : bool :=
  match pt with
  | PDReload _ _ _ None => true
  | _ => false
  end.

(** A call on the FIFO queue of the specification. *)
Definition fifo_apply (o : @op T) (l : list T) : resp * list T :=
  match o with
  | Enq v => (None, fifo_Enqueue v l)
  | Deq => (Some (fst (fifo_Dequeue zero l)), snd (fifo_Dequeue zero l))
  end.

(** What an action does to the pending values [l], by the points before
    and after it: a call takes effect at the action after which it is
    bound to return what it returns, except a [Dequeue] that returns
    [ok = false], which took effect when it loaded [nil]. *)
Definition step_lin (o : @op T) (pt pt' : point) (l l' : list T) : Prop :=
  if is_window pt then
    l' = l /\
    (lin pt' = None /\ is_window pt' = false \/
     lin pt' = Some (Some (zero, false)))
  else
    match lin pt, lin pt' with
    | None, Some r => fifo_apply o l = (r, l')
    | None, None => l' = l /\ (is_window pt' = true -> l = [])
    | Some r, Some r' => r = r' /\ l' = l
    | Some _, None => False
    end.

(** What an action keeps. *)
Definition kept (s : @store T) ch i j (o : @op T) (pt pt' : point)
    (s' : @store T) ch' i' j' : Prop :=
  chain s' ch' i' j' /\ grows s ch i j s' ch' i' j' /\
  pt_ok s' ch' i' j' o pt' /\
  (forall n, n ∈ ch' -> n ∈ ch \/ holds pt = Some n) /\
  (forall n, holds pt' = Some n -> holds pt = Some n \/ n = length (heap s)) /\
  length (heap s) <= length (heap s') /\
  consumed s' ch' i' = consumed s ch i ++ option_list (taken_point pt') /\
  step_lin o pt pt' (pending zero s ch i) (pending zero s' ch' i').

Lemma kept_same (s : @store T) ch i j o pt pt' :
  chain s ch i j -> pt_ok s ch i j o pt' ->
  (forall n, holds pt' = Some n -> holds pt = Some n) ->
  taken_point pt' = None ->
  step_lin o pt pt' (pending zero s ch i) (pending zero s ch i) ->
  kept s ch i j o pt pt' s ch i j.
Proof.
  intros C Hok Hh Ht Hl. unfold kept. rewrite Ht. cbn [option_list].
  rewrite app_nil_r.
  split_and!; [exact C|apply grows_refl|exact Hok| | |lia|done|exact Hl].
  - intros n Hn. by left.
  - intros n Hn. left. by apply Hh.
Qed.

Lemma kept_tail (s : @store T) ch i j o pt pt' tl nx p :
  chain s ch i j -> at_pos ch tl p -> at_pos ch nx (S p) ->
  tail (queue s) = tl ->
  (forall s', heap s' = heap s -> pt_ok s' ch i (S j) o pt') ->
  (forall n, holds pt' = Some n -> holds pt = Some n) ->
  taken_point pt' = None ->
  step_lin o pt pt' (pending zero s ch i) (pending zero s ch i) ->
  kept s ch i j o pt pt' (Store (heap s) (Queue (head (queue s)) nx)) ch i (S j).
Proof.
  intros C Htl Hnx Heq Hok Hh Ht Hl. unfold kept. rewrite Ht. cbn [option_list].
  destruct (chain_tail_cas _ _ _ _ _ _ _ C Htl Hnx Heq) as [C' ->].
  rewrite app_nil_r.
  split_and!; [exact C'|apply grows_queue; lia|by apply Hok| | |cbn; lia|done
              |exact Hl].
  - intros n Hn. by left.
  - intros n Hn. left. by apply Hh.
Qed.

(** The action at a point, under what the thread knows: it does not panic,
    and the shape, what the thread knows at the point it gets to, and the
    account of the values taken are kept. *)
Lemma pact_sinv (s : @store T) ch i j o pt :
  chain s ch i j -> pt_ok s ch i j o pt ->
  returns pt = None -> spins pt = false ->
  exists pt' s' ch' i' j',
    pact pt s = Done (pt', s') /\ kept s ch i j o pt pt' s' ch' i' j'.
Proof.
  intros C Hok Hr Hs.
  pose proof (chain_head_lt _ _ _ _ C) as Hi.
  pose proof (chain_lt _ _ _ _ C) as Hj.
  pose proof (chain_le _ _ _ _ C) as Hij.
  destruct o as [v|];
    destruct pt as [f v'|[|f] node|f node tl|f node tl nx|f node tl
                   |node tl|f node tl nx| |[|f]|f hd|f hd tl
                   |f hd tl nx|f tl nx|f hd nx|f hd nx w|r];
    cbn [pt_ok] in Hok; try done.
  - (* PEnq: allocation *)
    subst v'. eexists _, _, ch, i, j. cbn [pact]. unfold bind, alloc, ret.
    split; [reflexivity|]. unfold kept. cbn [heap holds].
    assert (length (heap s) ∉ ch) as Hfresh.
    { intros Hin. pose proof (chain_alloc_lt _ _ _ _ _ C Hin). lia. }
    assert (grows s ch i j (Store (heap s ++ [Node v None]) (queue s)) ch i j)
      as G.
    { split; try done.
      - intros a Ha. cbn [heap]. apply val_at_app_l. by eapply chain_alloc_lt.
      - intros n x _ Hn. cbn [heap]. by apply lookup_app_l_Some. }
    split_and!.
    + by apply chain_alloc.
    + exact G.
    + cbn [pt_ok]. exists (length (heap s)). split_and!; [done..|].
      cbn [heap]. by rewrite lookup_app_r, Nat.sub_diag.
    + intros n Hn. by left.
    + intros n [= <-]. by right.
    + rewrite length_app. lia.
    + cbn [taken_point option_list]. rewrite app_nil_r.
      by eapply consumed_grows.
    + cbn. split; [|done]. unfold pending. cbn [heap].
      apply map_ext_in. intros a Ha%list_elem_of_In.
      apply val_at_app_l. eapply chain_alloc_lt; [exact C|].
      eapply subseteq_drop, Ha.
  - (* PELoop: load tail *)
    eexists _, s, ch, i, j. cbn [pact].
    rewrite (bind_eq _ _ _ _ _ (load_tail s _ eq_refl)). unfold ret.
    split; [reflexivity|]. apply kept_same; try done.
    cbn [pt_ok]. split; [done|]. exists j.
    apply lookup_at_pos; [symmetry; apply C|done].
  - (* PENext: load tail.next *)
    destruct Hok as [Hu (p & a & -> & Ha)].
    destruct (chain_link _ _ _ _ C p a Ha) as (n & Hn & Hnx).
    eexists _, s, ch, i, j. cbn [pact].
    rewrite (bind_eq _ _ _ _ _ (load_next s a n _ Hn eq_refl)). unfold ret.
    split; [reflexivity|]. apply kept_same; try done.
    cbn [pt_ok]. split; [done|]. exists p. split; [by exists a|].
    rewrite Hnx. destruct (ch !! S p) as [b|] eqn:Hb; [right; by exists b|by left].
  - (* PEReload: load tail again and decide *)
    destruct Hok as [Hu (p & Ht & Hnx)].
    eexists _, s, ch, i, j. cbn [pact].
    rewrite (bind_eq _ _ _ _ _ (load_tail s _ eq_refl)). unfold ret.
    split; [reflexivity|].
    destruct (decide (tl = tail (queue s))); [|by apply kept_same].
    destruct (decide (nx = None)) as [->|Hne]; apply kept_same; try done;
      cbn [pt_ok].
    + split; [done|]. by exists p.
    + split; [done|]. exists p. by destruct Hnx.
  - (* PELink: cas tail.next from nil *)
    destruct Hok as [(n & -> & Hout & Hv) (p & a & -> & Ha)].
    destruct (chain_link _ _ _ _ C p a Ha) as (na & Hna & Hnx).
    destruct (decide (next na = None)) as [Hnil|Hnn].
    + assert (S p = length ch) as Hp.
      { rewrite Hnil in Hnx. symmetry in Hnx. apply lookup_ge_None_1 in Hnx.
        apply lookup_lt_Some in Ha. lia. }
      assert (ch !! (length ch - 1) = Some a) as Hlast.
      { by replace (length ch - 1) with p by lia. }
      eexists _, _, (ch ++ [n]), i, j. cbn [pact].
      rewrite (bind_eq _ _ _ _ _ (cas_next_ok s a na None (Some n) Hna Hnil)).
      unfold ret. split; [reflexivity|]. unfold kept.
      cbn [holds taken_point option_list].
      assert (grows s ch i j
                (Store (<[a := Node (value na) (Some n)]> (heap s)) (queue s))
                (ch ++ [n]) i j) as G.
      { split; try done.
        - by exists [n].
        - intros b Hb. cbn [heap]. by apply val_at_set_next.
        - intros m x Hm Hx. cbn [heap]. rewrite list_lookup_insert_ne; [done|].
          intros ->. apply Hm, elem_of_app. left. by eapply list_elem_of_lookup_2. }
      split_and!.
      * by eapply chain_link_only.
      * exact G.
      * cbn [pt_ok]. exists p. split.
        -- exists a. split; [done|]. by apply lookup_app_l_Some.
        -- exists n. split; [done|]. by rewrite Hp, lookup_app_r, Nat.sub_diag.
      * intros m [Hm| ->%list_elem_of_singleton]%elem_of_app; [by left|by right].
      * done.
      * cbn [heap]. by rewrite length_insert.
      * rewrite app_nil_r. by eapply consumed_grows.
      * cbn. unfold fifo_Enqueue, pending. cbn [heap]. f_equal.
        rewrite drop_app_le by lia. rewrite map_app. cbn [map]. f_equal.
        -- symmetry. apply map_ext_in. intros b Hb%list_elem_of_In.
           apply val_at_set_next; done.
        -- rewrite val_at_set_next by done. unfold val_at. by rewrite Hv.
    + eexists _, s, ch, i, j. cbn [pact].
      rewrite (bind_eq _ _ _ _ _ (cas_next_fail s a na None (Some n) Hna Hnn)).
      unfold ret. split; [reflexivity|]. apply kept_same; try done.
      cbn [pt_ok]. by exists n.
  - (* PESwing: cas tail to the linked node *)
    destruct Hok as (p & Ht & Hn).
    destruct (decide (tail (queue s) = tl)) as [Heq|Hne].
    + eexists _, _, ch, i, (S j). cbn [pact].
      rewrite (bind_eq _ _ _ _ _ (cas_tail_ok s tl node Heq)). unfold ret.
      split; [reflexivity|]. by apply (kept_tail _ _ _ _ _ _ _ tl _ p).
    + eexists _, s, ch, i, j. cbn [pact].
      rewrite (bind_eq _ _ _ _ _ (cas_tail_fail s tl node Hne)). unfold ret.
      split; [reflexivity|]. by apply kept_same.
  - (* PEHelp: cas tail to its successor *)
    destruct Hok as [Hu (p & Ht & Hn)].
    destruct (decide (tail (queue s) = tl)) as [Heq|Hne].
    + eexists _, _, ch, i, (S j). cbn [pact].
      rewrite (bind_eq _ _ _ _ _ (cas_tail_ok s tl nx Heq)). unfold ret.
      split; [reflexivity|]. apply (kept_tail _ _ _ _ _ _ _ tl _ p); try done.
      intros s' Hs'. cbn [pt_ok]. destruct Hu as (n & -> & Hout & Hv).
      exists n. by rewrite Hs'.
    + eexists _, s, ch, i, j. cbn [pact].
      rewrite (bind_eq _ _ _ _ _ (cas_tail_fail s tl nx Hne)). unfold ret.
      split; [reflexivity|]. by apply kept_same.
  - (* PDLoop: load head *)
    eexists _, s, ch, i, j. cbn [pact].
    rewrite (bind_eq _ _ _ _ _ (load_head s _ eq_refl)). unfold ret.
    split; [reflexivity|]. apply kept_same; try done.
    cbn [pt_ok]. exists i. split; [|done].
    apply lookup_at_pos; [symmetry; apply C|done].
  - (* PDTail: load tail *)
    destruct Hok as (ph & Hh & Hle).
    eexists _, s, ch, i, j. cbn [pact].
    rewrite (bind_eq _ _ _ _ _ (load_tail s _ eq_refl)). unfold ret.
    split; [reflexivity|]. apply kept_same; try done.
    cbn [pt_ok]. exists ph, j. split_and!; try done; try lia.
    apply lookup_at_pos; [symmetry; apply C|done].
  - (* PDNext: load head.next *)
    destruct Hok as (ph & pt & (a & -> & Ha) & Ht & Hle1 & Hle2 & Hle3).
    destruct (chain_link _ _ _ _ C ph a Ha) as (n & Hn & Hnx).
    eexists _, s, ch, i, j. cbn [pact].
    rewrite (bind_eq _ _ _ _ _ (load_next s a n _ Hn eq_refl)). unfold ret.
    split; [reflexivity|]. apply kept_same; try done.
    + cbn [pt_ok]. exists ph, pt. split_and!; try done; [by exists a|].
      rewrite Hnx. destruct (ch !! S ph) as [b|] eqn:Hb; [right; by exists b|left].
      split; [done|]. apply lookup_ge_None_1 in Hb. lia.
    + cbn. split; [done|]. rewrite Hnx.
      destruct (ch !! S ph) as [b|] eqn:Hb; [done|]. intros _.
      apply lookup_ge_None_1 in Hb. unfold pending. by rewrite drop_ge by lia.
  - (* PDReload: load head again and decide *)
    destruct Hok as (ph & pt & Hh & Ht & Hle1 & Hle2 & Hle3 & Hnx).
    eexists _, s, ch, i, j. cbn [pact].
    rewrite (bind_eq _ _ _ _ _ (load_head s _ eq_refl)). unfold ret.
    split; [reflexivity|].
    assert (hd = tl -> pt = ph) as Hsame.
    { intros ->. by eapply at_pos_inj. }
    assert (pt = ph -> hd = tl) as Hsame'.
    { intros ->. by rewrite <- (at_pos_lookup _ _ _ Hh), <- (at_pos_lookup _ _ _ Ht). }
    assert (forall pt', lin pt' = None -> is_window pt' = false ->
              step_lin Deq (PDReload f hd tl nx) pt'
                (pending zero s ch i) (pending zero s ch i)) as Hlin.
    { intros pt' Hl Hw. unfold step_lin. rewrite Hl, Hw.
      destruct nx; cbn; [by split|split; [done|by left]]. }
    destruct (decide (hd = head (queue s))); [|by apply kept_same; try apply Hlin].
    destruct (decide (hd = tl)) as [Heq|Hne].
    + destruct (decide (nx = None)) as [->|Hnn].
      * apply kept_same; try done. cbn. split; [done|by right].
      * apply kept_same; try done; [|by apply Hlin].
        cbn [pt_ok]. exists ph. destruct Hnx as [[-> _]|Hnx]; [done|].
        split; [|done]. by rewrite <- (Hsame Heq) at 1.
    + apply kept_same; try done; [|by apply Hlin].
      cbn [pt_ok]. exists ph. destruct Hnx as [[_ ->%Hsame']|Hnx]; [done|].
      split_and!; try done. assert (pt <> ph) by (intros ->%Hsame'; done). lia.
  - (* PDHelp: cas tail to its successor *)
    destruct Hok as (p & Ht & Hn).
    destruct (decide (tail (queue s) = tl)) as [Heq|Hne].
    + eexists _, _, ch, i, (S j). cbn [pact].
      rewrite (bind_eq _ _ _ _ _ (cas_tail_ok s tl nx Heq)). unfold ret.
      split; [reflexivity|]. by apply (kept_tail _ _ _ _ _ _ _ tl _ p).
    + eexists _, s, ch, i, j. cbn [pact].
      rewrite (bind_eq _ _ _ _ _ (cas_tail_fail s tl nx Hne)). unfold ret.
      split; [reflexivity|]. by apply kept_same.
  - (* PDRead: read next.value *)
    destruct Hok as (ph & Hh & (b & -> & Hb) & Hle).
    destruct (chain_link _ _ _ _ C (S ph) b Hb) as (nb & Hnb & _).
    eexists _, s, ch, i, j. cbn [pact].
    rewrite (bind_eq _ _ _ _ _ (read_value_at s b nb Hnb)). unfold ret.
    split; [reflexivity|]. apply kept_same; try done.
    cbn [pt_ok]. exists ph, b. split_and!; try done.
    unfold val_at. by rewrite Hnb.
  - (* PDCas: cas head to its successor *)
    destruct Hok as (ph & b & Hh & -> & Hb & Hle & ->).
    destruct (decide (head (queue s) = hd)) as [Heq|Hne].
    + assert (ph = i) as ->.
      { eapply at_pos_inj; [exact C|exact Hh|].
        apply lookup_at_pos; [|done]. rewrite <- Heq. symmetry. apply C. }
      eexists _, _, ch, (S i), j. cbn [pact].
      rewrite (bind_eq _ _ _ _ _ (cas_head_ok s hd (Some b) Heq)). unfold ret.
      split; [reflexivity|]. unfold kept. cbn [holds taken_point option_list].
      rewrite consumed_queue.
      split_and!.
      * apply chain_advance; [done|lia|done].
      * apply grows_queue; lia.
      * done.
      * intros n Hn. by left.
      * done.
      * cbn. lia.
      * by apply consumed_advance.
      * cbn. unfold pending. cbn [heap]. rewrite (drop_S _ _ _ Hb). done.
    + eexists _, s, ch, i, j. cbn [pact].
      rewrite (bind_eq _ _ _ _ _ (cas_head_fail s hd (Some b) Hne)). unfold ret.
      split; [reflexivity|]. by apply kept_same.
Qed.


(** ** The shape is kept by every step *)

Lemma omap_insert_perm {A B} (f : A -> option B) (l : list A) t x :
  l !! t = Some x ->
  exists rest,
    omap f l ≡ₚ option_list (f x) ++ rest /\
    forall y, omap f (<[t := y]> l) ≡ₚ option_list (f y) ++ rest.
Proof.
  intros Hx. exists (omap f (take t l) ++ omap f (drop (S t) l)).
  pose proof (lookup_lt_Some _ _ _ Hx) as Hlt.
  assert (forall y, omap f (take t l ++ y :: drop (S t) l)
                    ≡ₚ option_list (f y) ++
                       omap f (take t l) ++ omap f (drop (S t) l)) as Hy.
  { intros y. rewrite omap_app. cbn [omap list_omap].
    destruct (f y) as [b|]; cbn [option_list option_rect app]; [|done].
    symmetry. apply Permutation_middle. }
  split.
  - rewrite <- (take_drop_middle l t x Hx) at 1. apply Hy.
  - intros y. rewrite insert_take_drop by done. apply Hy.
Qed.

Definition taken_pthread (pth : pthread) : option T :=
  match pth with
  | PRunning _ pt _ => taken_point pt
  | PIdle _ => None
  end.

Lemma taken_thread_erase pth : taken_thread (erase pth) = taken_pthread pth.
Proof.
  destruct pth as [todo|o pt todo]; [done|]. cbn [erase taken_thread taken_pthread].
  destruct pt as [f v|[|f] node|f node tail|f node tail next|f node tail
                 |node tail|f node tail next| |[|f]|f head|f head tail
                 |f head tail next|f tail next|f head next|f head next v|r];
    try done.
Qed.

Lemma omap_taken_erase pts :
  omap taken_thread (map erase pts) = omap taken_pthread pts.
Proof.
  induction pts as [|pth pts IH]; [done|]. cbn [map omap list_omap].
  by rewrite taken_thread_erase, IH.
Qed.

Lemma taken_point_returns pt r t o :
  returns pt = Some r -> taken_event (ERes t o r) = taken_point pt.
Proof. destruct pt; try done; by intros [= <-]. Qed.

Lemma taken_point_acting pt : returns pt = None -> taken_point pt = None.
Proof. by destruct pt. Qed.

(** A node held unlinked is not in the list, and it is allocated. *)
Lemma holds_out (s : @store T) ch i j o pt n :
  pt_ok s ch i j o pt -> holds pt = Some n ->
  (n ∉ ch) /\ n < length (heap s).
Proof.
  intros Hok Hh.
  assert (exists v, unlinked s ch v (Some n)) as (v & m & [= <-] & Hout & Hm).
  { destruct o as [v|], pt; cbn [pt_ok holds] in *; try done; subst;
      exists v; tauto. }
  split; [done|]. by eapply lookup_lt_Some.
Qed.

Lemma holder_insert_ne pts t pth t' n :
  t' <> t -> holder (<[t := pth]> pts) t' n -> holder pts t' n.
Proof.
  intros Hne (o & pt & todo & Hl & Hh).
  rewrite list_lookup_insert_ne in Hl by done. by exists o, pt, todo.
Qed.

(** What a step is, once the shape is known: no step, a call, a return, or
    an action, which keeps what [kept] says. *)
Inductive trans (fuel t : nat) (c : config) (pts : list pthread)
    (ch : list nat) (i j : nat) (c' : config) (pts' : list pthread)
    (ch' : list nat) (i' j' : nat) : Prop :=
| trans_none :
    pts' = pts -> c' = c -> ch' = ch -> i' = i ->
    trans fuel t c pts ch i j c' pts' ch' i' j'
| trans_call o todo :
    pts !! t = Some (PIdle (o :: todo)) ->
    pts' = <[t := PRunning o (start fuel o) todo]> pts ->
    mem c' = mem c -> hist c' = hist c ++ [EInv t o] -> ch' = ch -> i' = i ->
    trans fuel t c pts ch i j c' pts' ch' i' j'
| trans_return o pt todo r :
    pts !! t = Some (PRunning o pt todo) -> returns pt = Some r ->
    pts' = <[t := PIdle todo]> pts ->
    mem c' = mem c -> hist c' = hist c ++ [ERes t o r] -> ch' = ch -> i' = i ->
    trans fuel t c pts ch i j c' pts' ch' i' j'
| trans_act o pt todo pt' :
    pts !! t = Some (PRunning o pt todo) -> returns pt = None ->
    pts' = <[t := PRunning o pt' todo]> pts ->
    hist c' = hist c ->
    pact pt (mem c) = Done (pt', mem c') ->
    kept (mem c) ch i j o pt pt' (mem c') ch' i' j' ->
    trans fuel t c pts ch i j c' pts' ch' i' j'.

Lemma sinv_pstep fuel t c pts ch i j pts' c' :
  sinv c pts ch i j -> pstep fuel t pts c pts' c' ->
  threads c' = map erase pts' ->
  exists ch' i' j',
    sinv c' pts' ch' i' j' /\ grows (mem c) ch i j (mem c') ch' i' j' /\
    trans fuel t c pts ch i j c' pts' ch' i' j'.
Proof.
  intros [Hth Hal C Hpts Hdis Htk] Hstep Hth'.
  assert (taken c ≡ₚ omap taken_event (hist c) ++ omap taken_pthread pts) as Htk0.
  { unfold taken. by rewrite Hth, omap_taken_erase. }
  rewrite Htk0 in Htk. clear Htk0.
  inversion Hstep as [Hn|o todo Ht|o pt todo r Ht Hr|o pt todo pt' s' Ht Hr Hs Hact
                     |o pt todo Ht Hr Hs Hact]; subst.
  - exists ch, i, j. split_and!; [|apply grows_refl|by apply trans_none].
    split; try done.
    unfold taken. by rewrite Hth, omap_taken_erase.
  - (* a call *)
    exists ch, i, j.
    split_and!; [|apply grows_refl|by eapply trans_call].
    split; cbn [mem crashed]; try done.
    + intros t0 o0 pt0 todo0 Hl. destruct (decide (t0 = t)) as [->|Hne].
      * rewrite list_lookup_insert_eq in Hl by (by eapply lookup_lt_Some).
        injection Hl as <- <- <-. by destruct o.
      * rewrite list_lookup_insert_ne in Hl by done. eauto.
    + intros t1 t2 n H1 H2.
      destruct (decide (t1 = t)) as [->|Hne1].
      { destruct H1 as (o1 & pt1 & todo1 & Hl & Hh).
        rewrite list_lookup_insert_eq in Hl by (by eapply lookup_lt_Some).
        injection Hl as <- <- <-. by destruct o. }
      destruct (decide (t2 = t)) as [->|Hne2].
      { destruct H2 as (o1 & pt1 & todo1 & Hl & Hh).
        rewrite list_lookup_insert_eq in Hl by (by eapply lookup_lt_Some).
        injection Hl as <- <- <-. by destruct o. }
      eapply Hdis; by eapply holder_insert_ne.
    + unfold taken. cbn [hist threads] in *. rewrite Hth', omap_taken_erase.
      cbn [hist threads] in *. rewrite omap_app. cbn [omap list_omap taken_event].
      rewrite app_nil_r.
      destruct (omap_insert_perm taken_pthread pts t _ Ht) as (rest & H1 & H2).
      rewrite H2. rewrite H1 in Htk. cbn [taken_pthread option_list option_rect app] in *.
      assert (taken_point (start fuel o) = None) as -> by (by destruct o).
      exact Htk.
  - (* a return *)
    exists ch, i, j.
    split_and!; [|apply grows_refl|by eapply trans_return].
    split; cbn [mem crashed]; try done.
    + intros t0 o0 pt0 todo0 Hl. destruct (decide (t0 = t)) as [->|Hne].
      * by rewrite list_lookup_insert_eq in Hl by (by eapply lookup_lt_Some).
      * rewrite list_lookup_insert_ne in Hl by done. eauto.
    + intros t1 t2 n H1 H2.
      destruct (decide (t1 = t)) as [->|Hne1].
      { destruct H1 as (o1 & pt1 & todo1 & Hl & Hh).
        by rewrite list_lookup_insert_eq in Hl by (by eapply lookup_lt_Some). }
      destruct (decide (t2 = t)) as [->|Hne2].
      { destruct H2 as (o1 & pt1 & todo1 & Hl & Hh).
        by rewrite list_lookup_insert_eq in Hl by (by eapply lookup_lt_Some). }
      eapply Hdis; by eapply holder_insert_ne.
    + unfold taken. cbn [hist threads] in *. rewrite Hth', omap_taken_erase.
      cbn [hist threads] in *. rewrite omap_app. cbn [omap list_omap].
      rewrite (taken_point_returns _ _ t o Hr).
      destruct (omap_insert_perm taken_pthread pts t _ Ht) as (rest & H1 & H2).
      rewrite H2. rewrite H1 in Htk. cbn [taken_pthread option_list option_rect app] in *.
      rewrite <- Htk. destruct (taken_point pt) as [v|]; cbn [option_list option_rect app].
      * rewrite <- app_assoc. done.
      * by rewrite app_nil_r.
  - (* an action *)
    pose proof (Hpts _ _ _ _ Ht) as Hok.
    destruct (pact_sinv _ _ _ _ _ _ C Hok Hr Hs)
      as (pt'' & s'' & ch' & i' & j' & Hact' & K).
    rewrite Hact in Hact'. injection Hact' as <- <-.
    pose proof K as (C' & G & Hok' & Hin & Hh' & Hlen & Hcons & _).
    exists ch', i', j'. split_and!; [|exact G|by eapply trans_act].
    split; cbn [mem crashed]; try done.
    + intros t0 o0 pt0 todo0 Hl. destruct (decide (t0 = t)) as [->|Hne].
      * rewrite list_lookup_insert_eq in Hl by (by eapply lookup_lt_Some).
        by injection Hl as <- <- <-.
      * rewrite list_lookup_insert_ne in Hl by done.
        eapply pt_ok_grows; [exact G| |by eapply Hpts].
        intros n Hn Hn'. destruct (Hin n Hn') as [Hc|Hc].
        -- by destruct (holds_out _ _ _ _ _ _ _ (Hpts _ _ _ _ Hl) Hn).
        -- apply Hne. eapply (Hdis _ _ n); [by exists o0, pt0, todo0|].
           by exists o, pt, todo.
    + assert (forall t2 n, t2 <> t -> holds pt' = Some n ->
                holder (<[t := PRunning o pt' todo]> pts) t2 n -> False) as Hnew.
      { intros t2 n Hne Hn (o2 & pt2 & todo2 & Hl2 & Hh2)%holder_insert_ne; [|done].
        destruct (Hh' n Hn) as [Hold| ->].
        - apply Hne. eapply (Hdis _ _ n); [by exists o2, pt2, todo2|].
          by exists o, pt, todo.
        - destruct (holds_out _ _ _ _ _ _ _ (Hpts _ _ _ _ Hl2) Hh2). lia. }
      intros t1 t2 n H1 H2.
      destruct (decide (t1 = t)) as [->|Hne1];
        destruct (decide (t2 = t)) as [->|Hne2]; try done.
      * destruct H1 as (o1 & pt1 & todo1 & Hl & Hh).
        rewrite list_lookup_insert_eq in Hl by (by eapply lookup_lt_Some).
        injection Hl as <- <- <-. by destruct (Hnew t2 n).
      * destruct H2 as (o1 & pt1 & todo1 & Hl & Hh).
        rewrite list_lookup_insert_eq in Hl by (by eapply lookup_lt_Some).
        injection Hl as <- <- <-. by destruct (Hnew t1 n).
      * eapply Hdis; by eapply holder_insert_ne.
    + unfold taken. cbn [hist threads] in *. rewrite Hth', omap_taken_erase.
      cbn [hist threads] in *. rewrite Hcons.
      destruct (omap_insert_perm taken_pthread pts t _ Ht) as (rest & H1 & H2).
      rewrite H2. rewrite H1 in Htk. cbn [taken_pthread option_list option_rect app] in *.
      rewrite (taken_point_acting _ Hr) in Htk. cbn [option_list option_rect app] in Htk.
      rewrite <- Htk. destruct (taken_point pt') as [v|]; cbn [option_list option_rect app].
      * rewrite <- Permutation_middle. apply Permutation_cons_append.
      * by rewrite app_nil_r.
  - (* no panic *)
    pose proof (Hpts _ _ _ _ Ht) as Hok.
    destruct (pact_sinv _ _ _ _ _ _ C Hok Hr Hs)
      as (pt'' & s'' & ch' & i' & j' & Hact' & K). congruence.
Qed.

Lemma sinv_init hp progs :
  sinv (init hp progs) (map PIdle progs) [length hp] 0 0.
Proof.
  split; cbn [init mem threads crashed hist].
  - rewrite <- list_fmap_compose. done.
  - done.
  - apply chain_New.
  - intros t o pt todo Hl. rewrite list_lookup_fmap in Hl.
    by destruct (progs !! t).
  - intros t1 t2 n (o & pt & todo & Hl & _). rewrite list_lookup_fmap in Hl.
    by destruct (progs !! t1).
  - unfold taken, consumed. cbn [hist threads omap list_omap drop take map app].
    induction progs as [|ops progs IH]; [done|]. exact IH.
Qed.

(** Every state an interleaving reaches has the shape, with a first node
    that is the dummy of [New]. *)
Lemma sinv_interleave hp fuel progs sc :
  exists pts ch i j,
    sinv (interleave fuel sc (init hp progs)) pts ch i j /\
    ch !! 0 = Some (length hp).
Proof.
  induction sc as [|t sc IH] using rev_ind.
  - exists (map PIdle progs), [length hp], 0, 0. split; [apply sinv_init|done].
  - destruct IH as (pts & ch & i & j & Hs & Hd).
    rewrite interleave_snoc.
    destruct (step_pstep fuel t pts _ (sinv_threads _ _ _ _ _ Hs)
                (sinv_alive _ _ _ _ _ Hs)) as (pts' & Hstep & Hth').
    destruct (sinv_pstep _ _ _ _ _ _ _ _ _ Hs Hstep Hth')
      as (ch' & i' & j' & Hs' & G & _).
    exists pts', ch', i', j'. split; [done|].
    eapply prefix_lookup_Some; [exact Hd|apply G].
Qed.


(** ** [head] and the values returned *)

(** An action leaves [head] where it is and takes no value, unless it is
    the [cas] of line 131 that succeeds: that one moves [head] to its
    successor and the call is bound to return the value of that node. *)
Lemma pact_head (s : @store T) ch i j o pt pt' s' :
  chain s ch i j -> pt_ok s ch i j o pt -> returns pt = None ->
  pact pt s = Done (pt', s') ->
  head (queue s') = head (queue s) /\ taken_point pt' = None \/
  exists b, ch !! S i = Some b /\ head (queue s') = Some b /\
            heap s' = heap s /\ o = Deq /\
            pt' = PDRet (val_at zero (heap s) b, true).
Proof.
  intros C Hok Hr Hact.
  destruct o as [v|];
    destruct pt as [f v'|[|f] node|f node tl|f node tl nx|f node tl|node tl
                   |f node tl nx| |[|f]|f hd|f hd tl|f hd tl nx|f tl nx
                   |f hd nx|f hd nx w|r];
    cbn [pt_ok] in Hok; try done.
  all: try (left; cbn [pact load cas] in Hact;
    unfold bind, ret, read_value, bind, ret, deref, alloc in Hact;
    repeat case_match; simplify_eq; done).
  destruct Hok as (ph & b & Hh & -> & Hb & Hle & ->).
  cbn [pact cas] in Hact. unfold bind, ret in Hact.
  destruct (decide (head (queue s) = hd)) as [Heq|Hne]; simplify_eq.
  - right. exists b.
    assert (ph = i) as ->.
    { eapply at_pos_inj; [exact C|exact Hh|].
      apply lookup_at_pos; [|by eapply chain_head_lt]. symmetry. apply C. }
    done.
  - by left.
Qed.

Lemma prog_of_PDRet r : prog_of (PDRet r) = Ret (Some r).
Proof. done. Qed.

(** C7. Whatever the threads and however their calls are interleaved, the
    state reached is a list of nodes from the dummy of [New] with [head] on
    its node [i], and the values the [Dequeue] calls have returned with
    [ok = true] (or are bound to return, the [cas] of [head] done) are, one
    for one, the values of the nodes [1 .. i]: the nodes [head] has moved
    onto, the one it points to included.  So the node [head] points to is
    the dummy or a node whose value has been taken, and no value is taken
    twice.  A step of a thread leaves [head] and the values taken as they
    are, unless it is the successful [cas] of a [Dequeue]: then [head] moves
    to its successor, and the value the call returns is the value of that
    successor, not that of the node [head] pointed to. *)
Theorem head_value_is_taken_once hp fuel progs sc :
  let c := interleave fuel sc (init hp progs) in
  exists ch i j,
    chain (mem c) ch i j /\
    ch !! 0 = Some (length hp) /\
    taken c ≡ₚ consumed (mem c) ch i /\
    forall t,
      let c' := step fuel t c in
      head (queue (mem c')) = head (queue (mem c)) /\ taken c' ≡ₚ taken c \/
      exists b todo,
        ch !! S i = Some b /\
        head (queue (mem c')) = Some b /\
        heap (mem c') = heap (mem c) /\
        threads c' !! t =
          Some (Running Deq (Ret (Some (val_at zero (heap (mem c)) b, true)))
                        todo) /\
        taken c' ≡ₚ taken c ++ [val_at zero (heap (mem c)) b].
Proof.
  intros c.
  destruct (sinv_interleave hp fuel progs sc) as (pts & ch & i & j & Hs & Hd).
  fold c in Hs. exists ch, i, j.
  split_and!; [apply Hs|done|apply Hs|].
  intros t c'.
  destruct (step_pstep fuel t pts c (sinv_threads _ _ _ _ _ Hs)
              (sinv_alive _ _ _ _ _ Hs)) as (pts' & Hstep & Hth').
  fold c' in Hstep, Hth'.
  destruct (sinv_pstep _ _ _ _ _ _ _ _ _ Hs Hstep Hth')
    as (ch' & i' & j' & Hs' & G & Htr).
  pose proof (sinv_taken _ _ _ _ _ Hs) as Htk.
  pose proof (sinv_taken _ _ _ _ _ Hs') as Htk'.
  destruct Htr as [-> Hc -> ->|o todo Ht -> Hm Hh -> ->
                  |o pt todo r Ht Hr -> Hm Hh -> ->
                  |o pt todo pt' Ht Hr -> Hh Hact K].
  - left. by rewrite Hc.
  - left. rewrite Hm in *. by rewrite Htk', Htk.
  - left. rewrite Hm in *. by rewrite Htk', Htk.
  - destruct K as (_ & _ & _ & _ & _ & _ & Hcons & _).
    rewrite Hcons, <- Htk in Htk'.
    destruct (pact_head _ _ _ _ _ _ _ _ (sinv_chain _ _ _ _ _ Hs)
                (sinv_pts _ _ _ _ _ Hs _ _ _ _ Ht) Hr Hact)
      as [[Hhd Hnone]|(b & Hb & Hhd & Hhp & -> & ->)].
    + left. split; [done|]. rewrite Htk', Hnone. cbn. by rewrite app_nil_r.
    + right. exists b, todo. split_and!; try done.
      rewrite Hth', list_lookup_fmap, list_lookup_insert_eq
        by (by eapply lookup_lt_Some).
      done.
Qed.


(** ** The nodes and their [next] fields *)

(** C6. Whatever the threads and however their calls are interleaved, one
    atomic action at a time, starting from a fresh queue: every step leaves
    the nodes as they are, or allocates one node, or stores to the [next]
    field of one node whose [next] is [nil]; and so, between any reachable
    state and any state reachable from it, every node keeps its value and a
    [next] that is not [nil] stays what it is.  The nodes linked from the
    dummy of [New] form a list to which a step can only append: after the
    step the list is the one before or an extension of it, and [head] and
    [tail] are where they were or further along the list. *)
Theorem next_is_written_once_interleaved hp fuel progs sc :
  let c := interleave fuel sc (init hp progs) in
  (forall t, heap_step (heap (mem c)) (heap (mem (step fuel t c)))) /\
  (forall sc' a n m,
      heap (mem c) !! a = Some n -> next n = Some m ->
      exists n', heap (mem (interleave fuel sc' c)) !! a = Some n' /\
                 value n' = value n /\ next n' = Some m) /\
  exists ch i j,
    chain (mem c) ch i j /\
    forall t, exists ch' i' j',
      chain (mem (step fuel t c)) ch' i' j' /\
      ch `prefix_of` ch' /\ i <= i' /\ j <= j'.
Proof.
  intros c.
  destruct (interleave_safe fuel sc _ (init_safe hp progs)) as [Hs _].
  fold c in Hs. split_and!.
  - intros t. apply (step_safe fuel t c Hs).
  - intros sc' a n m Hn Hm.
    destruct (interleave_safe fuel sc' c Hs) as [_ Hst].
    destruct (Hst a n Hn) as (n' & Hn' & Hv & Hx). eauto.
  - destruct (sinv_interleave hp fuel progs sc) as (pts & ch & i & j & Hi & _).
    fold c in Hi. exists ch, i, j. split; [apply Hi|]. intros t.
    destruct (step_pstep fuel t pts c (sinv_threads _ _ _ _ _ Hi)
                (sinv_alive _ _ _ _ _ Hi)) as (pts' & Hstep & Hth').
    destruct (sinv_pstep _ _ _ _ _ _ _ _ _ Hi Hstep Hth')
      as (ch' & i' & j' & Hi' & G & _).
    exists ch', i', j'. split_and!; [apply Hi'|apply G..].
Qed.

(** ** No nil pointer is dereferenced *)

(** X13. Whatever the threads and however their calls are interleaved, on
    a fresh queue no action panics: every pointer the code dereferences has
    been loaded from [head], [tail] or the [next] of a node of the list, and
    is not [nil] where the code dereferences it. *)
Theorem interleave_never_panics hp fuel progs sc :
  crashed (interleave fuel sc (init hp progs)) = false.
Proof.
  destruct (sinv_interleave hp fuel progs sc) as (pts & ch & i & j & Hi & _).
  apply Hi.
Qed.


(** ** Linearizability *)

(** The specification is a FIFO queue on which every call takes effect at
    once.  A thread of the specification is between two calls, or has
    called and the call has not taken effect, or the call has taken effect
    with a result and has not returned. *)
Inductive status : Type :=
| SIdle
| SPending (o : @op T)
| SDone (o : @op T) (r : resp).

(** A run of the specification is a history with, between the call and the
    return of a call, the point where the call takes effect. *)
Inductive label : Type :=
| LInv (t : nat) (o : @op T)
| LLin (t : nat)
| LRes (t : nat) (o : @op T) (r : resp).

Inductive spec_step :
    label -> list T * list status -> list T * list status -> Prop :=
| spec_inv t o l sts :
    sts !! t = Some SIdle ->
    spec_step (LInv t o) (l, sts) (l, <[t := SPending o]> sts)
| spec_lin t o l sts :
    sts !! t = Some (SPending o) ->
    spec_step (LLin t) (l, sts)
      (snd (fifo_apply o l), <[t := SDone o (fst (fifo_apply o l))]> sts)
| spec_res t o r l sts :
    sts !! t = Some (SDone o r) ->
    spec_step (LRes t o r) (l, sts) (l, <[t := SIdle]> sts).

Inductive spec_run :
    list label -> list T * list status -> list T * list status -> Prop :=
| spec_run_nil st : spec_run [] st st
| spec_run_cons lb A st st' st'' :
    spec_step lb st st' -> spec_run A st' st'' -> spec_run (lb :: A) st st''.

Definition visible_label (lb : label) : option event :=
  match lb with
  | LInv t o => Some (EInv t o)
  | LRes t o r => Some (ERes t o r)
  | LLin _ => None
  end.

(** The history of a run: its calls and returns. *)
Definition visible (A : list label) : list event := omap visible_label A.

(** A history of [n] threads is linearizable when it is the history of a
    run of the specification from the empty queue: every call that has
    returned took effect at a point between its call and its return, a call
    that has not returned took effect at a point after its call or not
    at all, and the calls applied to a FIFO queue in the order of these
    points return what they returned in the history.  The order of the
    points is a total order of the calls.  The statuses make the labels of
    a thread come in the order call, effect, return, so that order agrees
    with the order of the calls of each thread, and a call that returns
    before another is made comes before it. *)
Definition linearizable (n : nat) (H : list event) : Prop :=
  exists A st, visible A = H /\ spec_run A ([], replicate n SIdle) st.

(** The status of a thread in the run built for an interleaving.  A call
    has taken effect at the points after the action that settles what it
    returns.  A [Dequeue] that returns [ok = false] takes effect when it
    loads [nil] from [head.next], but whether it returns is known only when
    it loads [head] again: [x] says which of the two is assumed for a call
    between the two loads. *)
Definition status_of (x : bool) (pth : pthread) : status :=
  match pth with
  | PIdle _ => SIdle
  | PRunning o pt _ =>
      match lin pt with
      | Some r => SDone o r
      | None =>
          if x && is_window pt then SDone o (Some (zero, false))
          else SPending o
      end
  end.

Definition sts_of (X : nat -> bool) (pts : list pthread) : list status :=
  imap (fun t => status_of (X t)) pts.

(** For every choice [X] of the calls between the two loads that are
    assumed to return [ok = false], the history is that of a run of the
    specification that ends with the pending values [l] and the threads in
    the statuses that [X] and their points tell. *)
Definition linv (c : config) (pts : list pthread) (l : list T) : Prop :=
  forall X : nat -> bool,
    exists A, visible A = hist c /\
              spec_run A ([], replicate (length pts) SIdle) (l, sts_of X pts).

Lemma spec_run_snoc A lb st st' st'' :
  spec_run A st st' -> spec_step lb st' st'' -> spec_run (A ++ [lb]) st st''.
Proof.
  induction 1 as [st|lb0 A st st1 st2 Hstep Hrun IH]; intros Hlast.
  - eapply spec_run_cons; [exact Hlast|apply spec_run_nil].
  - cbn [app]. eapply spec_run_cons; [exact Hstep|by apply IH].
Qed.

Lemma visible_snoc A lb :
  visible (A ++ [lb]) = visible A ++ option_list (visible_label lb).
Proof.
  unfold visible. rewrite omap_app. cbn [omap list_omap].
  by destruct (visible_label lb).
Qed.

Lemma sts_of_lookup X pts t :
  sts_of X pts !! t = status_of (X t) <$> pts !! t.
Proof. apply (list_lookup_imap (fun t => status_of (X t))). Qed.

Lemma sts_of_insert X pts t pth :
  sts_of X (<[t := pth]> pts) = <[t := status_of (X t) pth]> (sts_of X pts).
Proof.
  apply list_eq. intros u. rewrite sts_of_lookup.
  destruct (decide (u = t)) as [->|Hne].
  - destruct (decide (t < length pts)) as [Hlt|Hge].
    + rewrite !list_lookup_insert_eq; [done| |done].
      unfold sts_of. by rewrite length_imap.
    + rewrite !list_insert_ge; [by rewrite sts_of_lookup| |lia].
      unfold sts_of. rewrite length_imap. lia.
  - rewrite !list_lookup_insert_ne by done. by rewrite sts_of_lookup.
Qed.

Lemma sts_of_change X X' pts t pth pth' :
  pts !! t = Some pth -> (forall u, u <> t -> X u = X' u) ->
  status_of (X' t) pth' = status_of (X t) pth ->
  sts_of X' (<[t := pth']> pts) = sts_of X pts.
Proof.
  intros Ht HX Hst. apply list_eq. intros u. rewrite !sts_of_lookup.
  destruct (decide (u = t)) as [->|Hne].
  - rewrite list_lookup_insert_eq by (by eapply lookup_lt_Some).
    rewrite Ht. cbn. by rewrite Hst.
  - rewrite list_lookup_insert_ne by done. by rewrite HX.
Qed.

Lemma sts_of_idle X progs :
  sts_of X (map PIdle progs) = replicate (length (map PIdle progs)) SIdle.
Proof.
  apply list_eq. intros u. rewrite sts_of_lookup, list_lookup_fmap.
  rewrite length_map.
  destruct (progs !! u) as [ops|] eqn:Hu; cbn.
  - symmetry. apply lookup_replicate_2. by eapply lookup_lt_Some.
  - symmetry. apply lookup_replicate_None. by apply lookup_ge_None.
Qed.

Lemma lin_returns pt r : returns pt = Some r -> lin pt = Some r.
Proof. by destruct pt. Qed.

Lemma lin_window pt : is_window pt = true -> lin pt = None.
Proof. by destruct pt. Qed.

Lemma window_Deq (s : @store T) ch i j o pt :
  pt_ok s ch i j o pt -> is_window pt = true -> o = Deq.
Proof. by destruct o, pt. Qed.

Lemma status_of_start x fuel o todo :
  status_of x (PRunning o (start fuel o) todo) = SPending o.
Proof. destruct o; cbn; by rewrite andb_false_r. Qed.

(** Every step keeps the run, extended by the call, the return or the
    effect of the step. *)
Lemma linv_trans fuel t c pts ch i j c' pts' ch' i' j' :
  trans fuel t c pts ch i j c' pts' ch' i' j' ->
  linv c pts (pending zero (mem c) ch i) ->
  linv c' pts' (pending zero (mem c') ch' i').
Proof.
  intros Htr Hl.
  destruct Htr as [-> -> -> ->|o todo Ht -> Hm Hh -> ->
                  |o pt todo r Ht Hr -> Hm Hh -> ->
                  |o pt todo pt' Ht Hr -> Hh Hact K]; [done|..].
  - (* a call *)
    intros X. destruct (Hl X) as (A & HA & Hrun).
    exists (A ++ [LInv t o]). rewrite visible_snoc, HA, Hh, Hm, length_insert.
    split; [done|]. eapply spec_run_snoc; [exact Hrun|].
    rewrite sts_of_insert, status_of_start. apply spec_inv.
    by rewrite sts_of_lookup, Ht.
  - (* a return *)
    intros X. destruct (Hl X) as (A & HA & Hrun).
    exists (A ++ [LRes t o r]). rewrite visible_snoc, HA, Hh, Hm, length_insert.
    split; [done|]. eapply spec_run_snoc; [exact Hrun|].
    rewrite sts_of_insert. cbn [status_of]. apply spec_res.
    rewrite sts_of_lookup, Ht. cbn. by rewrite (lin_returns _ _ Hr).
  - (* an action *)
    destruct K as (_ & _ & Hok' & _ & _ & _ & _ & Hlin).
    intros X'. rewrite Hh, length_insert. unfold step_lin in Hlin.
    destruct (is_window pt) eqn:Hw.
    + (* the second load of a [Dequeue] that has loaded [nil] *)
      pose proof (lin_window _ Hw) as Hnone.
      destruct Hlin as [-> [[Hl' Hw']|Hl']].
      * set (X := fun u => if decide (u = t) then false else X' u).
        destruct (Hl X) as (A & HA & Hrun).
        exists A. split; [done|].
        rewrite (sts_of_change X X' pts t (PRunning o pt todo));
          [exact Hrun|done| |].
        -- intros u Hne. unfold X. by rewrite decide_False.
        -- unfold X. cbn. rewrite decide_True, Hnone, Hl', Hw' by done.
           by rewrite andb_false_r.
      * set (X := fun u => if decide (u = t) then true else X' u).
        destruct (Hl X) as (A & HA & Hrun).
        exists A. split; [done|].
        rewrite (sts_of_change X X' pts t (PRunning o pt todo));
          [exact Hrun|done| |].
        -- intros u Hne. unfold X. by rewrite decide_False.
        -- unfold X. cbn. by rewrite decide_True, Hnone, Hl', Hw by done.
    + destruct (Hl X') as (A & HA & Hrun).
      destruct (lin pt) as [r|] eqn:Hp; destruct (lin pt') as [r'|] eqn:Hp'.
      * destruct Hlin as [-> ->]. exists A. split; [done|].
        rewrite (sts_of_change X' X' pts t (PRunning o pt todo)); try done.
        cbn. by rewrite Hp, Hp'.
      * done.
      * (* the call takes effect *)
        exists (A ++ [LLin t]). rewrite visible_snoc. cbn. rewrite app_nil_r.
        split; [done|]. eapply spec_run_snoc; [exact Hrun|].
        rewrite sts_of_insert. cbn [status_of]. rewrite Hp'.
        replace (pending zero (mem c') ch' i')
          with (snd (fifo_apply o (pending zero (mem c) ch i)))
          by (by rewrite Hlin).
        replace r' with (fst (fifo_apply o (pending zero (mem c) ch i)))
          by (by rewrite Hlin).
        apply spec_lin. rewrite sts_of_lookup, Ht. cbn.
        by rewrite Hp, Hw, andb_false_r.
      * destruct Hlin as [-> Hempty].
        destruct (X' t && is_window pt') eqn:Hx.
        -- (* a [Dequeue] loads [nil] from [head.next] *)
           apply andb_true_iff in Hx as [Hx Hw'].
           pose proof (window_Deq _ _ _ _ _ _ Hok' Hw') as ->.
           exists (A ++ [LLin t]). rewrite visible_snoc. cbn. rewrite app_nil_r.
           split; [done|]. eapply spec_run_snoc; [exact Hrun|].
           rewrite sts_of_insert. cbn [status_of]. rewrite Hp', Hx, Hw'.
           cbn [andb]. rewrite (Hempty Hw').
           change (SDone Deq (Some (zero, false)))
             with (SDone Deq (fst (fifo_apply Deq []))).
           change ([] : list T) with (snd (fifo_apply Deq [])) at 2.
           apply spec_lin. rewrite sts_of_lookup, Ht. cbn.
           by rewrite Hp, Hw, andb_false_r.
        -- exists A. split; [done|].
           rewrite (sts_of_change X' X' pts t (PRunning o pt todo)); try done.
           cbn. by rewrite Hp, Hp', Hx, Hw, andb_false_r.
Qed.

Lemma linv_init hp progs :
  linv (init hp progs) (map PIdle progs)
       (pending zero (mem (init hp progs)) [length hp] 0).
Proof.
  intros X. exists []. split; [done|].
  rewrite sts_of_idle. apply spec_run_nil.
Qed.

Lemma trans_length fuel t c pts ch i j c' pts' ch' i' j' :
  trans fuel t c pts ch i j c' pts' ch' i' j' -> length pts' = length pts.
Proof.
  intros [-> _ _ _|o todo _ -> _ _ _ _|o pt todo r _ _ -> _ _ _ _
         |o pt todo pt' _ _ -> _ _ _]; by rewrite ?length_insert.
Qed.

Lemma linv_interleave hp fuel progs sc :
  exists pts ch i j,
    sinv (interleave fuel sc (init hp progs)) pts ch i j /\
    length pts = length progs /\
    linv (interleave fuel sc (init hp progs)) pts
         (pending zero (mem (interleave fuel sc (init hp progs))) ch i).
Proof.
  induction sc as [|t sc IH] using rev_ind.
  - exists (map PIdle progs), [length hp], 0, 0.
    split_and!; [apply sinv_init|by rewrite length_map|apply linv_init].
  - destruct IH as (pts & ch & i & j & Hs & Hlen & Hl).
    rewrite interleave_snoc.
    destruct (step_pstep fuel t pts _ (sinv_threads _ _ _ _ _ Hs)
                (sinv_alive _ _ _ _ _ Hs)) as (pts' & Hstep & Hth').
    destruct (sinv_pstep _ _ _ _ _ _ _ _ _ Hs Hstep Hth')
      as (ch' & i' & j' & Hs' & G & Htr).
    exists pts', ch', i', j'. split_and!; [done| |by eapply linv_trans].
    by rewrite (trans_length _ _ _ _ _ _ _ _ _ _ _ _ Htr).
Qed.

(** C4. Whatever the threads and however the actions of their [Enqueue]
    and [Dequeue] calls are interleaved, the history of the calls and
    returns is linearizable: every call takes effect at one point between
    its call and its return, and the calls applied to a FIFO queue one at a
    time in the order of these points return what the calls returned. *)
Theorem Enqueue_Dequeue_linearizable hp fuel progs sc :
  linearizable (length progs) (hist (interleave fuel sc (init hp progs))).
Proof.
  destruct (linv_interleave hp fuel progs sc)
    as (pts & ch & i & j & _ & Hlen & Hl).
  destruct (Hl (fun _ => false)) as (A & HA & Hrun).
  rewrite Hlen in Hrun. by eexists A, _.
Qed.

(** A history is not linearizable for free: in a linearizable history
    without a call of [Enqueue], every call that returns is a [Dequeue]
    that returns the zero value and [ok = false]. *)
Definition only_empty (st : list T * list status) : Prop :=
  fst st = [] /\
  (forall t o, snd st !! t = Some (SPending o) -> o = Deq) /\
  (forall t o r, snd st !! t = Some (SDone o r) -> r = Some (zero, false)).

Lemma only_empty_insert l sts t x :
  only_empty (l, sts) ->
  (forall o, x = SPending o -> o = Deq) ->
  (forall o r, x = SDone o r -> r = Some (zero, false)) ->
  only_empty (l, <[t := x]> sts).
Proof.
  intros (Hl & Hp & Hd) Hxp Hxd. split_and!; [done|..]; cbn [snd] in *.
  - intros u o Hu. destruct (decide (u = t)) as [->|Hne].
    + apply list_lookup_insert_Some in Hu as [(_ & Hx & _)|[? _]]; [|done].
      by apply Hxp.
    + rewrite list_lookup_insert_ne in Hu by done. eauto.
  - intros u o r Hu. destruct (decide (u = t)) as [->|Hne].
    + apply list_lookup_insert_Some in Hu as [(_ & Hx & _)|[? _]]; [|done].
      by eapply Hxd.
    + rewrite list_lookup_insert_ne in Hu by done. eauto.
Qed.

Lemma spec_run_only_empty A st st' :
  spec_run A st st' -> only_empty st ->
  (forall t v, EInv t (Enq v) ∉ visible A) ->
  forall t o r, ERes t o r ∈ visible A -> r = Some (zero, false).
Proof.
  induction 1 as [st|lb A st st1 st2 Hstep Hrun IH]; intros Hst Hno t o r Hin.
  - by apply elem_of_nil in Hin.
  - destruct Hstep as [u o' l sts Hu|u o' l sts Hu|u o' r' l sts Hu];
      unfold visible in *; cbn [omap list_omap visible_label] in *.
    + apply elem_of_cons in Hin as [[=]|Hin].
      assert (o' = Deq) as ->.
      { destruct o' as [v|]; [|done]. destruct (Hno u v). by left. }
      eapply IH; [| |exact Hin].
      * apply only_empty_insert; [done| |done]. by intros o1 [= <-].
      * intros t1 v1 H1. apply (Hno t1 v1). by right.
    + destruct Hst as (Hl & Hp & Hd). cbn [fst snd] in *. subst l.
      pose proof (Hp _ _ Hu) as ->. eapply IH; [|exact Hno|exact Hin].
      apply only_empty_insert; [by split_and!|done|]. by intros o1 r1 [= <- <-].
    + destruct Hst as (Hl & Hp & Hd). cbn [fst snd] in *.
      apply elem_of_cons in Hin as [[= -> -> ->]|Hin]; [by eapply Hd|].
      eapply IH; [| |exact Hin].
      * apply only_empty_insert; [by split_and!|done|done].
      * intros t1 v1 H1. apply (Hno t1 v1). by right.
Qed.

Lemma linearizable_without_Enqueue n H :
  linearizable n H ->
  (forall t v, EInv t (Enq v) ∉ H) ->
  forall t o r, ERes t o r ∈ H -> r = Some (zero, false).
Proof.
  intros (A & st & <- & Hrun) Hno. eapply spec_run_only_empty; [exact Hrun| |done].
  split_and!; [done|..]; cbn [snd].
  - by intros t o [[=] _]%lookup_replicate.
  - by intros t o r [[=] _]%lookup_replicate.
Qed.


(** ** Fuel

    The loops of the code are unbounded, those of the trees stop when the
    fuel is spent.  In a schedule a thread performs at most one iteration
    per step, so no loop is out of fuel within a schedule shorter than the
    fuel: on every finite schedule the trees with enough fuel do what the
    unbounded loops do. *)

(** The iterations left at a point, where the call is not over. *)
Definition fuel_at (pt : point) : option nat :=
  match pt with
  | PEnq f _ | PELoop f _ | PENext f _ _ | PEReload f _ _ _ | PELink f _ _
  | PEHelp f _ _ _ | PDLoop f | PDTail f _ | PDNext f _ _ | PDReload f _ _ _
  | PDHelp f _ _ | PDRead f _ _ | PDCas f _ _ _ => Some f
  | PESwing _ _ | PERet | PDRet _ => None
  end.

Lemma pact_fuel_at pt (s : @store T) pt' s' f' :
  pact pt s = Done (pt', s') -> fuel_at pt' = Some f' ->
  exists f, fuel_at pt = Some f /\ f <= S f'.
Proof.
  intros Hact Hf'.
  destruct pt as [f v'|[|f] node|f node tl|f node tl nx|f node tl|node tl
                 |f node tl nx| |[|f]|f hd|f hd tl|f hd tl nx|f tl nx
                 |f hd nx|f hd nx w|r];
    cbn [pact load cas] in Hact;
    unfold bind, ret, read_value, bind, ret, deref, alloc in Hact;
    repeat case_match; simplify_eq; cbn [fuel_at] in *; simplify_eq;
    eexists; (split; [reflexivity|lia]).
Qed.

Lemma spins_fuel_at pt : spins pt = true -> fuel_at pt = Some 0.
Proof. by destruct pt as [| [] | | | | | | | [] | | | | | | |]. Qed.

Lemma prog_of_Spin pt : prog_of pt = Spin -> spins pt = true.
Proof.
  destruct pt as [f v'|[|f] node|f node tl|f node tl nx|f node tl|node tl
                 |f node tl nx| |[|f]|f hd|f hd tl|f hd tl nx|f tl nx
                 |f hd nx|f hd nx w|r]; done.
Qed.

Lemma fuel_interleave hp fuel progs sc :
  exists pts ch i j,
    sinv (interleave fuel sc (init hp progs)) pts ch i j /\
    forall t o pt todo f,
      pts !! t = Some (PRunning o pt todo) -> fuel_at pt = Some f ->
      fuel <= f + length sc.
Proof.
  induction sc as [|t sc IH] using rev_ind.
  - exists (map PIdle progs), [length hp], 0, 0. split; [apply sinv_init|].
    intros t o pt todo f Hl. rewrite list_lookup_fmap in Hl.
    by destruct (progs !! t).
  - destruct IH as (pts & ch & i & j & Hs & Hf).
    rewrite interleave_snoc, length_app. cbn [length].
    destruct (step_pstep fuel t pts _ (sinv_threads _ _ _ _ _ Hs)
                (sinv_alive _ _ _ _ _ Hs)) as (pts' & Hstep & Hth').
    destruct (sinv_pstep _ _ _ _ _ _ _ _ _ Hs Hstep Hth')
      as (ch' & i' & j' & Hs' & G & Htr).
    exists pts', ch', i', j'. split; [done|].
    intros u o pt todo f Hu Hfu.
    destruct Htr as [-> _ _ _|o' todo' Ht -> _ _ _ _
                    |o' pt0 todo' r Ht Hr -> _ _ _ _
                    |o' pt0 todo' pt' Ht Hr -> _ Hact _].
    + specialize (Hf _ _ _ _ _ Hu Hfu). lia.
    + destruct (decide (u = t)) as [->|Hne].
      * rewrite list_lookup_insert_eq in Hu by (by eapply lookup_lt_Some).
        injection Hu as <- <- <-. destruct o'; cbn in Hfu; simplify_eq; lia.
      * rewrite list_lookup_insert_ne in Hu by done.
        specialize (Hf _ _ _ _ _ Hu Hfu). lia.
    + destruct (decide (u = t)) as [->|Hne].
      * by rewrite list_lookup_insert_eq in Hu by (by eapply lookup_lt_Some).
      * rewrite list_lookup_insert_ne in Hu by done.
        specialize (Hf _ _ _ _ _ Hu Hfu). lia.
    + destruct (decide (u = t)) as [->|Hne].
      * rewrite list_lookup_insert_eq in Hu by (by eapply lookup_lt_Some).
        injection Hu as <- <- <-.
        destruct (pact_fuel_at _ _ _ _ _ Hact Hfu) as (f0 & Hf0 & Hle).
        specialize (Hf _ _ _ _ _ Ht Hf0). lia.
      * rewrite list_lookup_insert_ne in Hu by done.
        specialize (Hf _ _ _ _ _ Hu Hfu). lia.
Qed.

(** With more fuel than the schedule has steps, no thread is out of fuel. *)
Lemma enough_fuel hp fuel progs sc t o todo :
  length sc < fuel ->
  threads (interleave fuel sc (init hp progs)) !! t <> Some (Running o Spin todo).
Proof.
  intros Hlt Ht.
  destruct (fuel_interleave hp fuel progs sc) as (pts & ch & i & j & Hs & Hf).
  rewrite (sinv_threads _ _ _ _ _ Hs), list_lookup_fmap in Ht.
  destruct (pts !! t) as [[todo'|o' pt todo']|] eqn:Hpt; try done.
  cbn in Ht. injection Ht as -> Hp ->.
  apply prog_of_Spin, spins_fuel_at in Hp.
  specialize (Hf _ _ _ _ _ Hpt Hp). lia.
Qed.

End Interleaving.

(** * The properties on concrete queues of integers *)

(** The queue after [Enqueue(5)] on a fresh queue. *)
Definition q_one : store :=
  Store [Node 0 (Some 1); Node 5 None] (Queue (Some 0) (Some 1)).

(** The queue after [Enqueue(7)] and a [Dequeue] on a fresh queue. *)
Definition q_drained : store :=
  Store [Node 0 (Some 1); Node 7 None] (Queue (Some 1) (Some 1)).

(** A queue whose tail lags: the node holding 6 is linked, [tail] is still
    on the node holding 5. *)
Definition q_lagging : store :=
  Store [Node 0 (Some 1); Node 5 (Some 2); Node 6 None]
        (Queue (Some 0) (Some 1)).

Lemma q_lagging_chain : chain q_lagging [0; 1; 2] 0 1.
Proof.
  split; cbn; try done; try lia.
  - apply NoDup_ListNoDup. repeat constructor; simpl; lia.
  - intros [|[|[|k]]] a Hk; simplify_eq/=; eexists; by split.
Defined.

Lemma Dequeue_empty_contract_witness :
  run 0 1 [Enq 1; Enq 2; Deq; Deq] (New 0 []) =
  Done ([(1, true); (2, true)],
        Store [Node 0 (Some 1); Node 1 (Some 2); Node 2 None]
              (Queue (Some 2) (Some 2))) /\
  Dequeue 0 1 (Store [Node 0 (Some 1); Node 1 (Some 2); Node 2 None]
                     (Queue (Some 2) (Some 2))) =
  Done ((0, false),
        Store [Node 0 (Some 1); Node 1 (Some 2); Node 2 None]
              (Queue (Some 2) (Some 2))).
Proof.
  split; [reflexivity|].
  apply (Dequeue_empty_contract 0 [] 0 1 [Enq 1; Enq 2; Deq; Deq]
           [(1, true); (2, true)]); reflexivity.
Defined.

Lemma Dequeue_empty_idempotent_witness :
  is_empty q_drained = true /\
  run 0 1 [Deq; Deq; Deq] q_drained =
  Done ([(0, false); (0, false); (0, false)], q_drained).
Proof.
  split; [reflexivity|].
  apply (Dequeue_empty_idempotent 0 0 q_drained 3). reflexivity.
Defined.

Lemma Enqueue_Dequeue_return_witness :
  chain q_lagging [0; 1; 2] 0 1 /\
  (exists s' ch', Enqueue 2 9 q_lagging = Done (tt, s') /\
                  chain s' ch' 0 (length ch' - 1)) /\
  (exists r s' i' j', Dequeue 0 2 q_lagging = Done (r, s') /\
                      chain s' [0; 1; 2] i' j').
Proof.
  split; [exact q_lagging_chain|].
  destruct (Enqueue_Dequeue_return 0) as [_ H].
  destruct (H q_lagging [0; 1; 2] 0 1 q_lagging_chain) as (He & Hd & _).
  split; [apply (He 2 9); cbn; lia|apply (Hd 0)].
Defined.

Lemma single_caller_next_written_once_witness :
  run 0 1 [Enq 9; Deq] q_one =
  Done ([(5, true)],
        Store [Node 0 (Some 1); Node 5 (Some 2); Node 9 None]
              (Queue (Some 1) (Some 2))) /\
  exists n',
    [Node 0 (Some 1); Node 5 (Some 2); Node 9 None] !! 0 = Some n' /\
    value n' = 0 /\ next n' = Some 1.
Proof.
  split; [reflexivity|].
  destruct (single_caller_next_written_once 0) as [H _].
  apply (H 1 [Enq 9; Deq] q_one [(5, true)]
           (Store [Node 0 (Some 1); Node 5 (Some 2); Node 9 None]
                  (Queue (Some 1) (Some 2)))
           eq_refl 0 (Node 0 (Some 1)) 1 eq_refl eq_refl).
Defined.

Lemma dequeued_value_stays_in_head_witness :
  Dequeue 0 1 q_one =
  Done ((5, true), Store [Node 0 (Some 1); Node 5 None]
                         (Queue (Some 1) (Some 1))) /\
  exists b nb,
    head (queue (Store [Node 0 (Some 1); Node 5 None]
                       (Queue (Some 1) (Some 1)))) = Some b /\
    [Node 0 (Some 1); Node 5 None] !! b = Some nb /\ value nb = 5.
Proof.
  split; [reflexivity|].
  destruct (dequeued_value_stays_in_head 0 1 q_one 5
              (Store [Node 0 (Some 1); Node 5 None] (Queue (Some 1) (Some 1)))
              eq_refl) as (b & nb & Hb & Hnb & Hv & _).
  by exists b, nb.
Defined.

Lemma single_caller_head_value_unused_witness :
  run 0 1 [Enq 5] (New 0 []) = Done ([], q_one) /\
  Dequeue 0 1 q_one =
  Done ((5, true), Store [Node 0 (Some 1); Node 5 None]
                         (Queue (Some 1) (Some 1))) /\
  exists b nb,
    b <> 0 /\ heap q_one !! b = Some nb /\ value nb = 5 /\
    head (queue (Store [Node 0 (Some 1); Node 5 None]
                       (Queue (Some 1) (Some 1)))) = Some b.
Proof.
  split; [reflexivity|]. split; [reflexivity|].
  destruct (single_caller_head_value_unused 0 [] 0 [Enq 5])
    as (outs & s & h & hn & Hrun & Hh & Hn & _ & Hd & _).
  injection Hrun as <- <-. injection Hh as <-. injection Hn as <-.
  destruct (Hd 5 _ eq_refl) as (b & nb & _ & Hne & Hnb & Hv & Hhd).
  by exists b, nb.
Defined.

(** A queue whose tail lags on the node [head] points to: the node holding
    5 is linked, [tail] is still on the dummy. *)
Definition q_lagging_head : store :=
  Store [Node 0 (Some 1); Node 5 None] (Queue (Some 0) (Some 0)).

Lemma q_lagging_head_chain : chain q_lagging_head [0; 1] 0 0.
Proof.
  split; cbn; try done; try lia.
  - apply NoDup_ListNoDup. repeat constructor; simpl; lia.
  - intros [|[|k]] a Hk; simplify_eq/=; eexists; by split.
Defined.

Lemma Dequeue_result_any_store_witness :
  Dequeue 0 2 q_lagging_head =
  Done ((5, true), Store [Node 0 (Some 1); Node 5 None]
                         (Queue (Some 1) (Some 1))) /\
  heap (Store [Node 0 (Some 1); Node 5 None] (Queue (Some 1) (Some 1))) =
  heap q_lagging_head.
Proof.
  split; [reflexivity|].
  exact (proj1 (Dequeue_result_any_store 0 2 q_lagging_head 5 true
                  (Store [Node 0 (Some 1); Node 5 None]
                         (Queue (Some 1) (Some 1))) eq_refl)).
Defined.

Lemma Enqueue_result_any_store_witness :
  Enqueue 2 9 q_lagging =
  Done (tt, Store [Node 0 (Some 1); Node 5 (Some 2); Node 6 (Some 3);
                   Node 9 None]
                  (Queue (Some 0) (Some 3))) /\
  tail (queue (Store [Node 0 (Some 1); Node 5 (Some 2); Node 6 (Some 3);
                      Node 9 None]
                     (Queue (Some 0) (Some 3)))) =
  Some (length (heap q_lagging)).
Proof.
  split; [reflexivity|].
  exact (proj1 (proj2 (Enqueue_result_any_store 2 9 q_lagging tt
                         (Store [Node 0 (Some 1); Node 5 (Some 2);
                                 Node 6 (Some 3); Node 9 None]
                                (Queue (Some 0) (Some 3))) eq_refl))).
Defined.

Lemma nil_queue_panics_witness :
  Enqueue 1 7 (Store [] (Queue None None)) = Panic /\
  Dequeue 0 1 (Store [] (Queue None None)) = Panic.
Proof.
  destruct (nil_queue_panics 0 0 7 (Store [] (Queue None None))) as [He Hd].
  split; [apply He|apply Hd]; reflexivity.
Defined.

Lemma empty_queue_refines_fifo_witness :
  is_empty q_drained = true /\
  exists s',
    run 0 1 [Enq 1; Deq; Deq] q_drained = Done ([(1, true); (0, false)], s').
Proof.
  split; [reflexivity|].
  destruct (empty_queue_refines_fifo 0 0 q_drained [Enq 1; Deq; Deq] eq_refl)
    as (s' & Hrun & _).
  exists s'. exact Hrun.
Defined.

Lemma single_caller_tail_never_lags_witness :
  is_empty q_drained = true /\
  exists outs s' t nt,
    run 0 1 [Enq 1; Enq 2; Deq] q_drained = Done (outs, s') /\
    tail (queue s') = Some t /\ heap s' !! t = Some nt /\ next nt = None.
Proof.
  split; [reflexivity|].
  destruct (single_caller_tail_never_lags 0 0 q_drained [Enq 1; Enq 2; Deq]
              eq_refl) as (outs & s' & h & t & nt & Hrun & _ & Ht & Hnt & Hnx).
  by exists outs, s', t, nt.
Defined.

Lemma lagging_queue_refines_fifo_witness :
  chain q_lagging [0; 1; 2] 0 1 /\
  exists s',
    run 0 2 [Deq; Enq 9; Deq; Deq; Deq] q_lagging =
    Done ([(5, true); (6, true); (9, true); (0, false)], s').
Proof.
  split; [exact q_lagging_chain|].
  destruct (lagging_queue_refines_fifo 0 2 [Deq; Enq 9; Deq; Deq; Deq]
              q_lagging [0; 1; 2] 0 1 q_lagging_chain)
    as (s' & _ & _ & _ & Hrun & _); [lia|cbn; lia|].
  exists s'. exact Hrun.
Defined.

Lemma helping_takes_iterations_witness :
  chain q_lagging_head [0; 1] 0 0 /\
  Enqueue 1 9 q_lagging_head = OutOfFuel /\
  Dequeue 0 1 q_lagging_head = OutOfFuel.
Proof.
  split; [exact q_lagging_head_chain|].
  destruct (helping_takes_iterations 0 q_lagging_head [0; 1] 0 0
              q_lagging_head_chain) as [He Hd].
  split; [apply He; cbn; lia|apply Hd; [reflexivity|cbn; lia]].
Defined.

Lemma queues_do_not_interfere_witness :
  exists s',
    run 0 1 [Enq 1; Enq 2; Deq]
        (Store [Node 0 None; Node 0 None] (Queue (Some 0) (Some 0))) =
    Done ([(1, true)], s') /\
    separate 0 (heap s') (queue s') (Queue (Some 1) (Some 1)) [2] [].
Proof.
  destruct (queues_do_not_interfere 0) as (Hnew & _ & Hrun).
  destruct (Hrun 0 [Enq 1; Enq 2; Deq] _ _ _ _ _
              (Hnew (New 0 []) [] (quiescent_New 0 [])))
    as (s' & Hs' & Hsep).
  exists s'. split; [exact Hs'|exact Hsep].
Defined.

(** ** Threads on a queue of integers *)

(** One thread enqueues 5 and two threads call [Dequeue]. *)
Definition three_threads : list (list (@op nat)) := [[Enq 5]; [Deq]; [Deq]].

(** Thread 0 makes its call and returns. *)
Definition enqueue_5 : list nat := repeat 0 8.

(** Then thread 1 and thread 2 both load [head], [tail], [head.next] and
    [head] again, and read the value 5 of the successor of the dummy. *)
Definition both_read_5 : list nat := enqueue_5 ++ repeat 1 6 ++ repeat 2 6.

(** Then thread 1 does its [cas] and returns; the [cas] of thread 2 fails,
    and thread 2 goes round its loop again and returns. *)
Definition one_takes_5 : list nat := [1; 1] ++ repeat 2 6.

Lemma one_takes_5_history :
  hist (interleave 0 3 (both_read_5 ++ one_takes_5) (init 0 [] three_threads)) =
  [EInv 0 (Enq 5); ERes 0 (Enq 5) None; EInv 1 Deq; EInv 2 Deq;
   ERes 1 Deq (Some (5, true)); ERes 2 Deq (Some (0, false))].
Proof. reflexivity. Qed.

Lemma Enqueue_Dequeue_linearizable_witness :
  linearizable 0 3
    (hist (interleave 0 3 (both_read_5 ++ one_takes_5)
             (init 0 [] three_threads))).
Proof.
  exact (Enqueue_Dequeue_linearizable 0 [] 3 three_threads
           (both_read_5 ++ one_takes_5)).
Defined.

Lemma next_is_written_once_interleaved_witness :
  let c := interleave 0 3 enqueue_5 (init 0 [] three_threads) in
  heap (mem c) = [Node 0 (Some 1); Node 5 None] /\
  heap_step (heap (mem c)) (heap (mem (step 0 3 1 c))) /\
  exists n',
    heap (mem (interleave 0 3 (repeat 1 6 ++ repeat 2 6 ++ one_takes_5) c)) !! 0
      = Some n' /\
    value n' = 0 /\ next n' = Some 1.
Proof.
  intros c. split; [reflexivity|].
  destruct (next_is_written_once_interleaved 0 [] 3 three_threads enqueue_5)
    as (Hstep & Hkeep & _).
  split; [apply Hstep|].
  apply (Hkeep _ 0 (Node 0 (Some 1)) 1); reflexivity.
Defined.

Lemma head_value_is_taken_once_witness :
  let c := interleave 0 3 both_read_5 (init 0 [] three_threads) in
  head (queue (mem c)) = Some 0 /\
  head (queue (mem (step 0 3 1 c))) = Some 1 /\
  threads (step 0 3 1 c) !! 1 = Some (Running Deq (Ret _ (Some (5, true))) []) /\
  exists ch i j,
    chain (mem c) ch i j /\
    ch !! 0 = Some 0 /\
    taken c ≡ₚ consumed 0 (mem c) ch i /\
    forall t,
      let c' := step 0 3 t c in
      head (queue (mem c')) = head (queue (mem c)) /\ taken c' ≡ₚ taken c \/
      exists b todo,
        ch !! S i = Some b /\
        head (queue (mem c')) = Some b /\
        heap (mem c') = heap (mem c) /\
        threads c' !! t =
          Some (Running Deq (Ret _ (Some (val_at 0 (heap (mem c)) b, true)))
                        todo) /\
        taken c' ≡ₚ taken c ++ [val_at 0 (heap (mem c)) b].
Proof.
  intros c. split_and!; [reflexivity..|].
  exact (head_value_is_taken_once 0 [] 3 three_threads both_read_5).
Defined.
